(** * dragoman/text: ranges, extraction and replacement

    A shallow embedding of the Go package [text] (Range, Extract,
    ExtractString, Replace, ReplaceMany) together with the parts of the Go
    standard library it runs on (unicode/utf8, strings.Reader, bufio.Reader,
    string slicing and concatenation), and the properties of the package
    proved over that embedding.

    Conventions.  Go's [uint] and [int] are 64-bit; they are carried as [Z]
    and every conversion or arithmetic operation of the source is followed by
    its wrap-around ([to_uint], [to_int]).  A Go [string] is a sequence of
    bytes ([list byte]); [len] is its number of bytes.  A Go function that
    returns [(string, error)] returns a pair whose second component is an
    [option error]; a run-time panic is a separate outcome ([Panics]). *)

From Stdlib Require Import ZArith List Lia Bool.
From Stdlib.Strings Require Import String Ascii Byte.
From Stdlib Require Import DecimalString.
Import ListNotations.
Open Scope Z_scope.

(** ** Machine integers *)

Definition max_int : Z := 2 ^ 63 - 1.

(** Conversion to (or wrap-around in) the unsigned 64-bit type [uint]. *)
Definition to_uint (z : Z) : Z := z mod 2 ^ 64.

(** Conversion to (or wrap-around in) the signed 64-bit types [int], [int64]. *)
Definition to_int (z : Z) : Z := (z + 2 ^ 63) mod 2 ^ 64 - 2 ^ 63.

(** Wrap-around in [int32], the type of a [rune]. *)
Definition to_int32 (z : Z) : Z := (z + 2 ^ 31) mod 2 ^ 32 - 2 ^ 31.

Definition is_uint (z : Z) : Prop := 0 <= z < 2 ^ 64.

(** ** Strings *)

Definition gostring : Type := list byte.

(** The Go string with the bytes of a literal. *)
Definition str (s : string) : gostring := list_byte_of_string s.

Definition len {A : Type} (s : list A) : Z := Z.of_nat (List.length s).

Definition b2z (b : byte) : Z := Z.of_N (Byte.to_N b).

Definition z2b (z : Z) : byte :=
  match Byte.of_N (Z.to_N (z mod 256)) with
  | Some b => b
  | None => x00
  end.

(** [%d] of [fmt.Sprintf]. *)
Definition fmt_d (z : Z) : string := NilZero.string_of_int (Z.to_int z).

(** ** Panics and results *)

Inductive panic : Type :=
| slice_bounds_out_of_range
| string_concatenation_too_long.

(** The outcome of running a piece of Go code: a value or a panic. *)
Inductive run (A : Type) : Type :=
| Value (v : A)
| Panics (p : panic).

Arguments Value {A} v.
Arguments Panics {A} p.

Definition bind {A B : Type} (m : run A) (k : A -> run B) : run B :=
  match m with
  | Value v => k v
  | Panics p => Panics p
  end.

Notation "x <- m ;; k" := (bind m (fun x => k))
  (at level 61, m at next level, right associativity).

(** [s[:i]] for an index that was converted to [int]. *)
Definition slice_to (s : gostring) (i : Z) : run gostring :=
  if (0 <=? i) && (i <=? len s) then Value (firstn (Z.to_nat i) s)
  else Panics slice_bounds_out_of_range.

(** [s[i:]]. *)
Definition slice_from (s : gostring) (i : Z) : run gostring :=
  if (0 <=? i) && (i <=? len s) then Value (skipn (Z.to_nat i) s)
  else Panics slice_bounds_out_of_range.

(** [a + b + c] on strings: the runtime refuses a result whose length does
    not fit an [int]. *)
Definition concat3 (a b c : gostring) : run gostring :=
  if len a + len b + len c <=? max_int then Value (a ++ b ++ c)
  else Panics string_concatenation_too_long.

(** ** unicode/utf8 *)

Module utf8.

Definition RuneError : Z := 0xFFFD.
Definition RuneSelf : Z := 0x80.
Definition MaxRune : Z := 0x10FFFF.
Definition UTFMax : Z := 4.

Definition surrogateMin : Z := 0xD800.
Definition surrogateMax : Z := 0xDFFF.

Definition t1 : Z := 0x00.
Definition tx : Z := 0x80.
Definition t2 : Z := 0xC0.
Definition t3 : Z := 0xE0.
Definition t4 : Z := 0xF0.

Definition maskx : Z := 0x3F.
Definition mask2 : Z := 0x1F.
Definition mask3 : Z := 0x0F.
Definition mask4 : Z := 0x07.

Definition rune1Max : Z := 2 ^ 7 - 1.
Definition rune2Max : Z := 2 ^ 11 - 1.
Definition rune3Max : Z := 2 ^ 16 - 1.

Definition locb : Z := 0x80.
Definition hicb : Z := 0xBF.

Definition xx : Z := 0xF1.
Definition as_ : Z := 0xF0.
Definition s1 : Z := 0x02.
Definition s2 : Z := 0x13.
Definition s3 : Z := 0x03.
Definition s4 : Z := 0x23.
Definition s5 : Z := 0x34.
Definition s6 : Z := 0x04.
Definition s7 : Z := 0x44.

(** The table [first], by the ranges of its 256 entries. *)
Definition first (b : Z) : Z :=
  if b <? 0x80 then as_
  else if b <? 0xC2 then xx
  else if b <? 0xE0 then s1
  else if b =? 0xE0 then s2
  else if b <? 0xED then s3
  else if b =? 0xED then s4
  else if b <? 0xF0 then s3
  else if b =? 0xF0 then s5
  else if b <? 0xF4 then s6
  else if b =? 0xF4 then s7
  else xx.

(** The table [acceptRanges] (lo, hi); entries past the fifth are zero. *)
Definition acceptRanges (i : Z) : Z * Z :=
  match i with
  | 0 => (locb, hicb)
  | 1 => (0xA0, hicb)
  | 2 => (locb, 0x9F)
  | 3 => (0x90, hicb)
  | 4 => (locb, 0x8F)
  | _ => (0, 0)
  end.

Definition at_ (p : list byte) (i : nat) : Z := b2z (nth i p x00).

Definition FullRune (p : list byte) : bool :=
  let n := len p in
  if n =? 0 then false
  else
    let x := first (at_ p 0) in
    if n >=? Z.land x 7 then true
    else
      let accept := acceptRanges (Z.shiftr x 4) in
      if (n >? 1) && ((at_ p 1 <? fst accept) || (snd accept <? at_ p 1)) then true
      else if (n >? 2) && ((at_ p 2 <? locb) || (hicb <? at_ p 2)) then true
      else false.

Definition DecodeRune (p : list byte) : Z * Z :=
  let n := len p in
  if n <? 1 then (RuneError, 0)
  else
    let p0 := at_ p 0 in
    let x := first p0 in
    if x >=? as_ then
      let mask := Z.shiftr (to_int32 (Z.shiftl x 31)) 31 in
      (Z.lor (Z.land p0 (Z.lnot mask)) (Z.land RuneError mask), 1)
    else
      let sz := Z.land x 7 in
      let accept := acceptRanges (Z.shiftr x 4) in
      if n <? sz then (RuneError, 1)
      else
        let b1 := at_ p 1 in
        if (b1 <? fst accept) || (snd accept <? b1) then (RuneError, 1)
        else if sz <=? 2 then
          (Z.lor (Z.shiftl (Z.land p0 mask2) 6) (Z.land b1 maskx), 2)
        else
          let b2 := at_ p 2 in
          if (b2 <? locb) || (hicb <? b2) then (RuneError, 1)
          else if sz <=? 3 then
            (Z.lor (Z.lor (Z.shiftl (Z.land p0 mask3) 12)
                          (Z.shiftl (Z.land b1 maskx) 6))
                   (Z.land b2 maskx), 3)
          else
            let b3 := at_ p 3 in
            if (b3 <? locb) || (hicb <? b3) then (RuneError, 1)
            else
              (Z.lor (Z.lor (Z.lor (Z.shiftl (Z.land p0 mask4) 18)
                                   (Z.shiftl (Z.land b1 maskx) 12))
                            (Z.shiftl (Z.land b2 maskx) 6))
                     (Z.land b3 maskx), 4).

(** The bytes appended for one rune by the conversion [string(runes)]. *)
Definition EncodeRune (r : Z) : list byte :=
  let i := r mod 2 ^ 32 in
  if i <=? rune1Max then [z2b r]
  else if i <=? rune2Max then
    [z2b (Z.lor t2 (Z.shiftr r 6)); z2b (Z.lor tx (Z.land r maskx))]
  else
    let three (r : Z) :=
      [z2b (Z.lor t3 (Z.shiftr r 12));
       z2b (Z.lor tx (Z.land (Z.shiftr r 6) maskx));
       z2b (Z.lor tx (Z.land r maskx))] in
    if (i >? MaxRune) || ((surrogateMin <=? i) && (i <=? surrogateMax))
    then three RuneError
    else if i <=? rune3Max then three r
    else
      [z2b (Z.lor t4 (Z.shiftr r 18));
       z2b (Z.lor tx (Z.land (Z.shiftr r 12) maskx));
       z2b (Z.lor tx (Z.land (Z.shiftr r 6) maskx));
       z2b (Z.lor tx (Z.land r maskx))].

End utf8.

(** [string(runes)]. *)
Definition string_of_runes (runes : list Z) : gostring :=
  flat_map utf8.EncodeRune runes.

(** ** Ranges and errors *)

(** [type Range [2]uint]: the pair (r[0], r[1]). *)
Definition Range : Type := (Z * Z)%type.

(** The components of a range in canonical form are values of [uint]. *)
Definition Range_wf (r : Range) : Prop := is_uint (fst r) /\ is_uint (snd r).

(** [func (r Range) Len() int]: [int(r[1] - r[0])]. *)
Definition Len (r : Range) : Z := to_int (to_uint (snd r - fst r)).

Inductive error : Type :=
| io_EOF
| io_ErrNoProgress
| errors_New (msg : string)
| RangeError (R : Range) (Message : string)
| fmt_Errorf (prefix : string) (err : error).

(** [err.Error()]; a wrapped error prints its prefix and the inner text. *)
Fixpoint Error (e : error) : string :=
  match e with
  | io_EOF => "EOF"
  | io_ErrNoProgress => "multiple Read calls return no data or error"
  | errors_New msg => msg
  | RangeError _ msg => msg
  | fmt_Errorf prefix err => prefix ++ Error err
  end.

(** [errors.Is(err, io.EOF)]: [err] or an error it wraps is [io.EOF]. *)
Fixpoint errors_Is_EOF (e : error) : bool :=
  match e with
  | io_EOF => true
  | fmt_Errorf _ err => errors_Is_EOF err
  | _ => false
  end.

Definition is_RangeError (e : option error) : bool :=
  match e with
  | Some (RangeError _ _) => true
  | _ => false
  end.

(** ** io.ReadSeeker and its implementation by strings.Reader *)

Inductive whence : Type := SeekStart | SeekCurrent | SeekEnd.

(** [Read r n] is a call [r.Read(p)] with [len(p) = n]: the new state of the
    reader, the bytes stored into [p] and the error.  [Seek r off w] likewise
    returns the new state, the new position and the error. *)
Class ReadSeeker (R : Type) : Type := {
  Read : R -> Z -> R * list byte * option error;
  Seek : R -> Z -> whence -> R * Z * option error
}.

Module strings.

(** [strings.Reader]: the string and the current reading index (an int64).
    [Read] advances the index by the number of bytes copied, which never
    takes it past [len(s)], so that addition cannot wrap. *)
Record Reader : Type := mkReader { s : gostring; i : Z }.

Definition NewReader (s : gostring) : Reader := mkReader s 0.

Definition Reader_Read (r : Reader) (n : Z) : Reader * list byte * option error :=
  if i r >=? len (s r) then (r, [], Some io_EOF)
  else
    let bs := firstn (Z.to_nat n) (skipn (Z.to_nat (i r)) (s r)) in
    (mkReader (s r) (i r + len bs), bs, None).

Definition Reader_Seek (r : Reader) (offset : Z) (w : whence)
  : Reader * Z * option error :=
  let abs :=
    match w with
    | SeekStart => offset
    | SeekCurrent => to_int (i r + offset)
    | SeekEnd => to_int (len (s r) + offset)
    end in
  if abs <? 0
  then (r, 0, Some (errors_New "strings.Reader.Seek: negative position"))
  else (mkReader (s r) abs, abs, None).

End strings.

#[export] Instance strings_Reader_ReadSeeker : ReadSeeker strings.Reader := {
  Read := strings.Reader_Read;
  Seek := strings.Reader_Seek
}.

(** ** bufio.Reader *)

Module bufio.

Definition defaultBufSize : Z := 4096.
Definition maxConsecutiveEmptyReads : nat := 100.

Section Reader.
Context {R : Type} `{ReadSeeker R}.

(** The underlying reader [rd], the unread part [buf[r:w]] of the buffer and
    the pending error [err]. *)
Record Reader : Type := mkReader { rd : R; buf : list byte; err : option error }.

Definition NewReader (rd : R) : Reader := mkReader rd [] None.

(** The read loop of [fill]: at most [i] reads, until one brings data or
    fails. *)
Fixpoint fill_reads (i : nat) (b : Reader) : Reader :=
  match i with
  | O => mkReader (rd b) (buf b) (Some io_ErrNoProgress)
  | S i' =>
      let '(rd', bs, e) := Read (rd b) (defaultBufSize - len (buf b)) in
      let b' := mkReader rd' (buf b ++ bs) (err b) in
      match e with
      | Some e' => mkReader rd' (buf b ++ bs) (Some e')
      | None => if len bs >? 0 then b' else fill_reads i' b'
      end
  end.

Definition fill (b : Reader) : Reader := fill_reads maxConsecutiveEmptyReads b.

Definition no_error (e : option error) : bool :=
  match e with
  | None => true
  | Some _ => false
  end.

(** The condition of the loop at the head of [ReadRune]. *)
Definition need_fill (b : Reader) : bool :=
  (len (buf b) <? utf8.UTFMax) && negb (utf8.FullRune (buf b))
  && no_error (err b) && (len (buf b) <? defaultBufSize).

Fixpoint fill_rune (fuel : nat) (b : Reader) : Reader :=
  if need_fill b then
    match fuel with
    | O => b
    | S fuel' => fill_rune fuel' (fill b)
    end
  else b.

(** [ReadRune]: the rune, its size and the error.  Each [fill] adds a byte
    or sets the error, so four rounds end the loop ([fill_rune_done]). *)
Definition ReadRune (b : Reader) : Reader * (Z * Z * option error) :=
  let b := fill_rune 4 b in
  match buf b with
  | [] => (mkReader (rd b) [] None, (0, 0, err b))
  | c :: _ =>
      let '(r, size) :=
        if b2z c >=? utf8.RuneSelf then utf8.DecodeRune (buf b) else (b2z c, 1) in
      (mkReader (rd b) (skipn (Z.to_nat size) (buf b)) (err b), (r, size, None))
  end.

End Reader.

Arguments Reader R : clear implicits.

End bufio.

(** ** Extract, ExtractString *)

(** The messages of the range errors of [Extract]. *)
Definition msg_negative : string := "negative length range".

Definition msg_start (r : Range) : string :=
  "range start (pos " ++ fmt_d (to_uint (fst r)) ++ ") after input end".

Definition msg_end (r : Range) (pos : Z) : string :=
  "range end (pos " ++ fmt_d (to_uint (snd r)) ++ ") after input end (pos "
  ++ fmt_d pos ++ ")".

(** [fmt.Errorf("seek pos %d: %w", r[0], err)]. *)
Definition seek_error (r : Range) (e : error) : error :=
  fmt_Errorf ("seek pos " ++ fmt_d (to_uint (fst r)) ++ ": ") e.

Section Extract.
Context {R : Type} `{ReadSeeker R}.

(** The loop [for l := rangeLen; l > 0; l--] of [Extract]; [n] counts the
    iterations left, [l] is the loop variable. *)
Fixpoint Extract_loop (n : nat) (r : Range) (rangeLen l : Z)
    (br : bufio.Reader R) (runes : list Z) : gostring * option error :=
  match n with
  | O => (string_of_runes runes, None)
  | S n' =>
      let '(br', (run, _, err)) := bufio.ReadRune br in
      match err with
      | Some e =>
          if errors_Is_EOF e then
            (str "", Some (RangeError r
               (msg_end r (to_uint (fst r + to_uint (to_int (rangeLen - l)))))))
          else (str "", Some (fmt_Errorf "read rune: " e))
      | None => Extract_loop n' r rangeLen (to_int (l - 1)) br' (runes ++ [run])
      end
  end.

Definition Extract (input : R) (r : Range) : gostring * option error :=
  let rangeLen := Len r in
  if rangeLen =? 0 then (str "", None)
  else if rangeLen <? 0 then
    (str "", Some (RangeError r msg_negative))
  else
    let '(input, _, err) := Seek input (to_int (fst r)) SeekStart in
    match err with
    | Some e =>
        (str "", Some (seek_error r e))
    | None =>
        let '(input, _, err) := Read input 1 in
        match err with
        | Some _ =>
            (str "", Some (RangeError r (msg_start r)))
        | None =>
            let '(input, _, _) := Seek input (-1) SeekCurrent in
            Extract_loop (Z.to_nat rangeLen) r rangeLen rangeLen
              (bufio.NewReader input) []
        end
    end.

End Extract.

Definition ExtractString (input : gostring) (r : Range) : gostring * option error :=
  Extract (strings.NewReader input) r.

(** ** Replace, ReplaceMany *)

Definition Replace (text repl : gostring) (r : Range)
  : run (gostring * option error) :=
  let tlen := len text in
  if Len r >? len text then
    Value (text, Some (RangeError r
      ("range [" ++ fmt_d (to_uint (fst r)) ++ ", " ++ fmt_d (to_uint (snd r))
       ++ ") out of bounds [" ++ fmt_d 0 ++ ", " ++ fmt_d tlen ++ ")")))
  else
    a <- slice_to text (to_uint (fst r)) ;;
    b <- slice_from text (to_uint (snd r)) ;;
    out <- concat3 a repl b ;;
    Value (out, None).

(** [type Replacement struct { Range Range; Text string }]. *)
Record Replacement : Type := mkReplacement { Range_ : Range; Text : gostring }.

(** The local [type offset struct { start uint; offset int }]. *)
Record offset : Type := mkOffset { start : Z; offset_ : Z }.

(** The inner loop: the sum of the recorded offsets whose start is at or
    before [r[0]]. *)
Definition applied_offset (offsets : list offset) (r : Range) : Z :=
  fold_left
    (fun off o => if start o <=? to_uint (fst r) then to_int (off + offset_ o) else off)
    offsets 0.

Fixpoint ReplaceMany_loop (input : gostring) (replacements : list Replacement)
    (output : gostring) (offsets : list offset) : run (gostring * option error) :=
  match replacements with
  | [] => Value (output, None)
  | repl :: rest =>
      let r := Range_ repl in
      let off := applied_offset offsets r in
      a <- slice_to output (to_int (to_int (fst r) + off)) ;;
      b <- slice_from output (to_int (to_int (snd r) + off)) ;;
      output' <- concat3 a (Text repl) b ;;
      match ExtractString input r with
      | (_, Some err) => Value (str "", Some (fmt_Errorf "extract text: " err))
      | (orgText, None) =>
          let lenDiff := to_int (len (Text repl) - len orgText) in
          let offsets' :=
            if lenDiff =? 0 then offsets
            else offsets ++ [mkOffset (to_uint (snd r + to_uint off)) lenDiff] in
          ReplaceMany_loop input rest output' offsets'
      end
  end.

Definition ReplaceMany (input : gostring) (replacements : list Replacement)
  : run (gostring * option error) :=
  ReplaceMany_loop input replacements input [].

(** ** Notions used in the statements *)

(** [[]rune(s)]: the runes of a string, decoded one at a time; every step
    consumes at least one byte, so [length p] steps are enough. *)
Fixpoint runes_fuel (fuel : nat) (p : list byte) : list Z :=
  match fuel with
  | O => []
  | S fuel' =>
      match p with
      | [] => []
      | _ :: _ =>
          let '(r, size) := utf8.DecodeRune p in
          r :: runes_fuel fuel' (skipn (Z.to_nat size) p)
      end
  end.

Definition runes (p : list byte) : list Z := runes_fuel (List.length p) p.

(** The first [n] runes at the head of [p], or, when [p] ends before that,
    the number of runes it holds. *)
Fixpoint decode_n (n : nat) (p : list byte) : list Z + Z :=
  match n with
  | O => inl []
  | S n' =>
      match p with
      | [] => inr 0
      | _ :: _ =>
          let '(r, size) := utf8.DecodeRune p in
          match decode_n n' (skipn (Z.to_nat size) p) with
          | inl rs => inl (r :: rs)
          | inr k => inr (k + 1)
          end
      end
  end.

(** A string of single-byte characters only. *)
Definition ascii_only (s : gostring) : Prop :=
  Forall (fun b => b2z b < utf8.RuneSelf) s.

(** [s[i:j]] for indices within bounds. *)
Definition sub (s : gostring) (i j : Z) : gostring :=
  firstn (Z.to_nat (j - i)) (skipn (Z.to_nat i) s).

(** The bytes of [s] that the range [r] covers, as the code reads it: the
    [r.Len()] bytes from the offset [int(r[0])]; that is [s[r[0]:r[1]]] for
    a range within bounds. *)
Definition span (s : gostring) (r : Range) : gostring :=
  sub s (to_int (fst r)) (to_int (fst r) + Len r).

Definition sum_Z (l : list Z) : Z := fold_right Z.add 0 l.

(** The runes at rune indices [[i, j)] of the decoded string [s], written
    back as a string. *)
Definition rune_slice (s : gostring) (i j : Z) : gostring :=
  string_of_runes (firstn (Z.to_nat (j - i)) (skipn (Z.to_nat i) (runes s))).

(** [strings.Contains(msg, sub)]. *)
Definition mentions (sub msg : string) : bool :=
  match String.index 0 sub msg with
  | Some _ => true
  | None => false
  end.

(** The bytes a buffered reader over a strings.Reader still has to deliver:
    its buffer followed by the unread part of the string. *)
Definition Inv (b : bufio.Reader strings.Reader) (stream : list byte) : Prop :=
  stream = bufio.buf b
           ++ skipn (Z.to_nat (strings.i (bufio.rd b))) (strings.s (bufio.rd b))
  /\ 0 <= strings.i (bufio.rd b)
  /\ (bufio.err b = None
      \/ (bufio.err b = Some io_EOF
          /\ len (strings.s (bufio.rd b)) <= strings.i (bufio.rd b))).

(** The document with the span of every replacement replaced by its text,
    for replacements in ascending order; [from] is the offset up to which
    the document has been consumed. *)
Fixpoint reassemble (doc : gostring) (from : Z) (rs : list Replacement) : gostring :=
  match rs with
  | [] => skipn (Z.to_nat from) doc
  | r :: rs' =>
      sub doc from (fst (Range_ r)) ++ Text r ++ reassemble doc (snd (Range_ r)) rs'
  end.

(** The length a replacement adds to the document. *)
Definition drift (r : Replacement) : Z :=
  len (Text r) - (snd (Range_ r) - fst (Range_ r)).

(** Replacements in ascending order within a document of length [n]: each
    range starts at or after the end [from] of the one before, and also at
    or after [thr], the position that end had in the working string when it
    was recorded; [D] is the drift accumulated so far. *)
Fixpoint ascending (n from thr D : Z) (rs : list Replacement) : Prop :=
  match rs with
  | [] => True
  | r :: rs' =>
      from <= fst (Range_ r) /\ thr <= fst (Range_ r)
      /\ fst (Range_ r) <= snd (Range_ r) <= n
      /\ ascending n (snd (Range_ r)) (snd (Range_ r) + D) (D + drift r) rs'
  end.

(** Replacements in descending order within a document: each range ends
    at or before [bound], the start of the one before, and starts before
    [thr], the end of the one before. *)
Fixpoint descending (bound thr : Z) (ds : list Replacement) : Prop :=
  match ds with
  | [] => True
  | r :: ds' =>
      0 <= fst (Range_ r) <= snd (Range_ r) /\ snd (Range_ r) <= bound
      /\ fst (Range_ r) < thr
      /\ descending (fst (Range_ r)) (snd (Range_ r)) ds'
  end.

(** The document with the spans replaced, for replacements in descending
    order; the part of the document from [bound] on has become [tail]. *)
Fixpoint reassemble_desc (doc : gostring) (bound : Z) (tail : gostring)
    (ds : list Replacement) : gostring :=
  match ds with
  | [] => firstn (Z.to_nat bound) doc ++ tail
  | r :: ds' =>
      reassemble_desc doc (fst (Range_ r))
        (Text r ++ sub doc (snd (Range_ r)) bound ++ tail) ds'
  end.

(** The well-formed lead and second bytes of the three-byte and four-byte
    sequences, and the continuation bytes. *)
Definition lead3 (p0 b1 : Z) : Prop :=
  (p0 = 0xE0 /\ 0xA0 <= b1 <= 0xBF)
  \/ ((0xE1 <= p0 < 0xED \/ 0xEE <= p0 < 0xF0) /\ 0x80 <= b1 <= 0xBF)
  \/ (p0 = 0xED /\ 0x80 <= b1 <= 0x9F).

Definition lead4 (p0 b1 : Z) : Prop :=
  (p0 = 0xF0 /\ 0x90 <= b1 <= 0xBF)
  \/ (0xF1 <= p0 < 0xF4 /\ 0x80 <= b1 <= 0xBF)
  \/ (p0 = 0xF4 /\ 0x80 <= b1 <= 0x8F).

Definition cont (b : Z) : Prop := 0x80 <= b <= 0xBF.

(** A string of well-formed UTF-8 sequences only: no step of the decoding
    yields the error rune for a byte that could not be decoded. *)
Fixpoint valid_fuel (fuel : nat) (p : list byte) : bool :=
  match fuel with
  | O => true
  | S fuel' =>
      match p with
      | [] => true
      | _ :: _ =>
          let '(r, size) := utf8.DecodeRune p in
          if (r =? utf8.RuneError) && (size =? 1) then false
          else valid_fuel fuel' (skipn (Z.to_nat size) p)
      end
  end.

Definition valid_utf8 (p : list byte) : bool := valid_fuel (List.length p) p.

(** ** cli: examples and translator configurations *)

Module cli.

Definition gostring_eq_dec : forall a b : gostring, {a = b} + {a <> b} :=
  list_eq_dec byte_eq_dec.

(** A [map[string]V], as far as lookups and assignments go: the value
    stored under each key, if any. *)
Definition gomap (V : Type) : Type := gostring -> option V.

(** [make(map[string]V)]. *)
Definition map_make {V : Type} : gomap V := fun _ => None.

(** [m[k] = v]. *)
Definition map_set {V : Type} (m : gomap V) (k : gostring) (v : V) : gomap V :=
  fun k' => if gostring_eq_dec k' k then Some v else m k'.

(** [type Translator struct]; [F] is the type of the field [New]. *)
Record Translator (F : Type) : Type := mkTranslator {
  Name : gostring;
  Description : gostring;
  New : F
}.

Arguments mkTranslator {F} Name Description New.
Arguments Name {F} t.
Arguments Description {F} t.
Arguments New {F} t.

(** The fields of [type CLI struct] that the functions below read or write:
    the translators and the examples, [map[FORMAT]map[SOURCE]EXAMPLE]. *)
Record CLI (F : Type) : Type := mkCLI {
  translators : list (Translator F);
  examples : gomap (gomap gostring)
}.

Arguments mkCLI {F} translators examples.
Arguments translators {F} c.
Arguments examples {F} c.

(** [type Option]: a function that updates the CLI it is given. *)
Definition Option (F : Type) : Type := CLI F -> CLI F.

Definition WithTranslator {F : Type} (trans : list (Translator F)) : Option F :=
  fun cli => mkCLI (translators cli ++ trans) (examples cli).

Definition WithExample {F : Type} (format source example : gostring) : Option F :=
  fun cli =>
    let examples_ :=
      match examples cli format with
      | Some m => m
      | None => map_make
      end in
    let examples_ := map_set examples_ source example in
    mkCLI (translators cli) (map_set (examples cli) format examples_).

(** [translatorConfig]: the first translator of that name; [nil_New] is the
    zero value of the field [New]. *)
Fixpoint translatorConfig_loop {F : Type} (nil_New : F)
    (ts : list (Translator F)) (name : gostring) : Translator F * bool :=
  match ts with
  | [] => (mkTranslator (str "") (str "") nil_New, false)
  | trans :: ts' =>
      if gostring_eq_dec (Name trans) name then (trans, true)
      else translatorConfig_loop nil_New ts' name
  end.

Definition translatorConfig {F : Type} (nil_New : F) (cli : CLI F)
    (name : gostring) : Translator F * bool :=
  translatorConfig_loop nil_New (translators cli) name.

Definition defaultExample (format source : gostring) : gostring :=
  str "translate " ++ format ++ str " " ++ source ++ str " CONTENT -o out."
  ++ format ++ str " --from en --into de --deepl $DEEPL_AUTH_LEY".

Definition example {F : Type} (cli : CLI F) (format source : gostring) : gostring :=
  match examples cli format with
  | None => defaultExample format source
  | Some examples_ =>
      match examples_ source with
      | None => defaultExample format source
      | Some content =>
          str "translate " ++ format ++ str " " ++ source ++ str " " ++ content
          ++ str " --from en --into de --deepl $DEEPL_AUTH_KEY"
      end
  end.

End cli.

(** ** Tactics *)

(** Boolean comparisons in the hypotheses, as propositions. *)
Ltac bool_to_Z :=
  repeat match goal with
         | H : (_ >=? _) = _ |- _ => rewrite Z.geb_leb in H
         | H : (_ >? _) = _ |- _ => rewrite Z.gtb_ltb in H
         | H : (_ <? _) = true |- _ => apply Z.ltb_lt in H
         | H : (_ <? _) = false |- _ => apply Z.ltb_ge in H
         | H : (_ <=? _) = true |- _ => apply Z.leb_le in H
         | H : (_ <=? _) = false |- _ => apply Z.leb_gt in H
         | H : (_ =? _) = true |- _ => apply Z.eqb_eq in H
         | H : (_ =? _) = false |- _ => apply Z.eqb_neq in H
         | H : (_ && _) = true |- _ => apply andb_true_iff in H; destruct H
         | H : (_ || _) = false |- _ => apply orb_false_iff in H; destruct H
         end.

(** Case analysis on the conditionals of the goal and of the hypotheses,
    closing the contradictory branches as soon as they appear. *)
Ltac prune :=
  bool_to_Z;
  try (exfalso; lia);
  lazymatch goal with
  | H : context [if ?c then _ else _] |- _ => destruct c eqn:?; prune
  | |- context [if ?c then _ else _] => destruct c eqn:?; prune
  | _ => first [reflexivity | discriminate]
  end.

(** The bit-level values of the runes are irrelevant for the control flow
    of [DecodeRune]: abstract them before simplifying. *)
Ltac hide_values :=
  repeat match goal with
         | |- context [Z.lor ?a ?b] =>
             let v := fresh "v" in set (v := Z.lor a b) in *; clearbody v
         end.

(** Linear arithmetic through the wrap-arounds. *)
Ltac wrap_lia :=
  unfold Len, to_int, to_uint, Range_wf, is_uint, max_int in *;
  Z.to_euclidean_division_equations; lia.

(** Arithmetic with divisions and remainders by constants. *)
Ltac euclid := Z.to_euclidean_division_equations; lia.

Ltac split_if :=
  repeat match goal with
         | |- context [if ?c then _ else _] => destruct c eqn:?
         end.

(** * Properties *)

(** ** Machine integers, bytes and lengths *)
Lemma to_int_small z : - 2 ^ 63 <= z < 2 ^ 63 -> to_int z = z.
Proof.
  intros Hz. unfold to_int.
  rewrite Z.mod_small by lia. lia.
Qed.

Lemma to_uint_small z : 0 <= z < 2 ^ 64 -> to_uint z = z.
Proof. intros Hz. unfold to_uint. now rewrite Z.mod_small. Qed.

Lemma to_int_range z : - 2 ^ 63 <= to_int z < 2 ^ 63.
Proof.
  unfold to_int. pose proof (Z.mod_pos_bound (z + 2 ^ 63) (2 ^ 64)). lia.
Qed.

Lemma to_uint_range z : 0 <= to_uint z < 2 ^ 64.
Proof. unfold to_uint. apply Z.mod_pos_bound. lia. Qed.

Lemma to_int_to_uint z : to_int (to_uint z) = to_int z.
Proof.
  unfold to_int, to_uint.
  rewrite Zplus_mod_idemp_l. reflexivity.
Qed.

Lemma b2z_range b : 0 <= b2z b < 256.
Proof. unfold b2z. pose proof (Byte.to_N_bounded b). lia. Qed.

Lemma z2b_b2z b : z2b (b2z b) = b.
Proof.
  unfold z2b. rewrite Z.mod_small by apply b2z_range.
  unfold b2z. rewrite N2Z.id, Byte.of_to_N. reflexivity.
Qed.

Lemma len_nonneg {A} (s : list A) : 0 <= len s.
Proof. unfold len. lia. Qed.

Lemma len_app {A} (a b : list A) : len (a ++ b) = len a + len b.
Proof. unfold len. rewrite length_app. lia. Qed.

Lemma len_cons {A} (a : A) (l : list A) : len (a :: l) = 1 + len l.
Proof. unfold len. cbn [List.length]. lia. Qed.

Lemma len_nil {A} : len (@nil A) = 0.
Proof. reflexivity. Qed.

Module utf8_facts.
Import utf8.

Lemma first_cases b :
  first b = as_ \/ first b = xx \/ first b = s1 \/ first b = s2 \/ first b = s3
  \/ first b = s4 \/ first b = s5 \/ first b = s6 \/ first b = s7.
Proof.
  unfold first.
  repeat match goal with
         | |- context [if ?c then _ else _] => destruct c
         end; tauto.
Qed.

Lemma DecodeRune_ascii a q :
  b2z a < RuneSelf -> DecodeRune (a :: q) = (b2z a, 1).
Proof.
  intros Ha. unfold DecodeRune, at_, first, RuneSelf in *.
  cbn [nth]. rewrite len_cons.
  destruct (1 + len q <? 1) eqn:E.
  - apply Z.ltb_lt in E. pose proof (len_nonneg q). lia.
  - destruct (b2z a <? 128) eqn:E1; [| apply Z.ltb_ge in E1; lia].
    cbn. rewrite Z.land_m1_r, Z.lor_0_r. reflexivity.
Qed.

Lemma EncodeRune_ascii a : b2z a < RuneSelf -> EncodeRune (b2z a) = [a].
Proof.
  intros Ha. unfold EncodeRune, RuneSelf, rune1Max in *.
  pose proof (b2z_range a).
  rewrite Z.mod_small by lia.
  destruct (b2z a <=? 2 ^ 7 - 1) eqn:E; [| apply Z.leb_gt in E; lia].
  now rewrite z2b_b2z.
Qed.

Lemma DecodeRune_size p :
  p <> [] -> 1 <= snd (DecodeRune p) <= len p.
Proof.
  destruct p as [|a p]; [congruence | intros _].
  unfold DecodeRune. rewrite len_cons. pose proof (len_nonneg p).
  destruct (1 + len p <? 1) eqn:E0; [apply Z.ltb_lt in E0; lia |].
  destruct (first_cases (at_ (a :: p) 0)) as [E|[E|[E|[E|[E|[E|[E|[E|E]]]]]]]];
    rewrite E; cbn -[Z.add len at_ Z.ltb Z.leb];
    repeat match goal with
           | |- context [if ?c then _ else _] => destruct c eqn:?
           end; bool_to_Z; cbn [snd]; try lia.
Qed.


Lemma ltb_false_of_le n k : k <= n -> (n <? k) = false.
Proof. intros; apply Z.ltb_ge; lia. Qed.

Lemma DecodeRune_app_long a b c d p q :
  DecodeRune ((a :: b :: c :: d :: p) ++ q) = DecodeRune (a :: b :: c :: d :: p).
Proof.
  unfold DecodeRune, at_. cbn [app nth].
  rewrite !len_cons.
  pose proof (len_nonneg p). pose proof (len_nonneg (p ++ q)).
  set (n1 := 1 + (1 + (1 + (1 + len (p ++ q))))).
  set (n2 := 1 + (1 + (1 + (1 + len p)))).
  assert (H1 : forall k, k <= 4 -> (n1 <? k) = false)
    by (intros; apply ltb_false_of_le; lia).
  assert (H2 : forall k, k <= 4 -> (n2 <? k) = false)
    by (intros; apply ltb_false_of_le; lia).
  rewrite (H1 1), (H2 1) by lia.
  destruct (first_cases (b2z a)) as [E|[E|[E|[E|[E|[E|[E|[E|E]]]]]]]];
    rewrite E; hide_values; cbn -[Z.add len b2z Z.ltb Z.leb];
    rewrite ?H1, ?H2 by lia; reflexivity.
Qed.

Lemma DecodeRune_app_full p q :
  FullRune p = true -> DecodeRune (p ++ q) = DecodeRune p.
Proof.
  intros Hf.
  destruct p as [|a [|b [|c [|d p]]]];
    [discriminate | | | | apply DecodeRune_app_long].
  all: unfold DecodeRune, FullRune, at_ in *; cbn [app nth] in *;
    rewrite ?len_cons, ?len_nil in *; pose proof (len_nonneg q);
    (destruct (first_cases (b2z a)) as [E|[E|[E|[E|[E|[E|[E|[E|E]]]]]]]];
    rewrite E in *; hide_values; cbn -[Z.add len b2z Z.ltb Z.leb] in *; prune).
Qed.

Lemma DecodeRune_app p q :
  p <> [] -> 4 <= len p \/ FullRune p = true \/ q = [] ->
  DecodeRune (p ++ q) = DecodeRune p.
Proof.
  intros Hp [H4 | [Hf | Hq]].
  - destruct p as [|a [|b [|c [|d p]]]]; try (cbn in H4; lia).
    apply DecodeRune_app_long.
  - now apply DecodeRune_app_full.
  - subst q; now rewrite app_nil_r.
Qed.

End utf8_facts.

(** ** bufio.Reader over any reader *)

Section bufio_generic.
Context {R : Type} `{ReadSeeker R}.

Lemma fill_reads_progress n (b : bufio.Reader R) :
  bufio.err (bufio.fill_reads n b) <> None
  \/ len (bufio.buf b) < len (bufio.buf (bufio.fill_reads n b)).
Proof.
  revert b. induction n as [|n IH]; intros b; cbn [bufio.fill_reads].
  - left. cbn. discriminate.
  - destruct (Read (bufio.rd b) _) as [[rd' bs] [e|]].
    + left. cbn. discriminate.
    + destruct (len bs >? 0) eqn:E.
      * right. cbn. rewrite len_app. rewrite Z.gtb_ltb in E.
        apply Z.ltb_lt in E. lia.
      * destruct (IH (bufio.mkReader rd' (bufio.buf b ++ bs) (bufio.err b)))
          as [He | Hl]; [now left | right].
        cbn in Hl. rewrite len_app in Hl. pose proof (len_nonneg bs). lia.
Qed.

Lemma need_fill_error (b : bufio.Reader R) :
  bufio.err b <> None -> bufio.need_fill b = false.
Proof.
  intros He. unfold bufio.need_fill.
  destruct (bufio.err b); [| congruence].
  cbn. now rewrite andb_false_r.
Qed.

Lemma need_fill_long (b : bufio.Reader R) :
  utf8.UTFMax <= len (bufio.buf b) -> bufio.need_fill b = false.
Proof.
  intros Hl. unfold bufio.need_fill.
  destruct (len (bufio.buf b) <? utf8.UTFMax) eqn:E; [| reflexivity].
  apply Z.ltb_lt in E. lia.
Qed.

Lemma fill_progress (b : bufio.Reader R) :
  bufio.err (bufio.fill b) <> None
  \/ len (bufio.buf b) < len (bufio.buf (bufio.fill b)).
Proof. apply fill_reads_progress. Qed.

(** The loop at the head of [ReadRune] has ended after [fuel] rounds when
    the buffer already held [UTFMax - fuel] bytes. *)
Lemma fill_rune_done fuel (b : bufio.Reader R) :
  utf8.UTFMax <= len (bufio.buf b) + Z.of_nat fuel ->
  bufio.need_fill (bufio.fill_rune fuel b) = false.
Proof.
  revert b. induction fuel as [|fuel IH]; intros b Hl; cbn [bufio.fill_rune].
  - destruct (bufio.need_fill b) eqn:E; [| exact E].
    rewrite need_fill_long in E by lia. discriminate.
  - destruct (bufio.need_fill b) eqn:E; [| exact E].
    destruct (fill_progress b) as [He | Hp].
    + destruct fuel; cbn [bufio.fill_rune];
        rewrite (need_fill_error _ He); now apply need_fill_error.
    + apply IH. lia.
Qed.

End bufio_generic.

(** ** bufio.Reader over a strings.Reader *)

Lemma skipn_all_len {A} (l : list A) i : len l <= i -> skipn (Z.to_nat i) l = [].
Proof. intros Hi. apply skipn_all2. unfold len in Hi. lia. Qed.

Lemma len_firstn {A} (l : list A) i :
  0 <= i -> len (firstn (Z.to_nat i) l) = Z.min i (len l).
Proof. intros Hi. unfold len. rewrite length_firstn. lia. Qed.

Lemma len_skipn {A} (l : list A) i :
  0 <= i -> len (skipn (Z.to_nat i) l) = Z.max 0 (len l - i).
Proof. intros Hi. unfold len. rewrite length_skipn. lia. Qed.

Lemma skipn_add {A} (l : list A) i j :
  0 <= i -> 0 <= j ->
  skipn (Z.to_nat (i + j)) l = skipn (Z.to_nat j) (skipn (Z.to_nat i) l).
Proof.
  intros Hi Hj. rewrite skipn_skipn. f_equal. lia.
Qed.

Lemma firstn_skipn_length {A} k (l : list A) :
  firstn k l ++ skipn (List.length (firstn k l)) l = l.
Proof.
  rewrite length_firstn.
  destruct (Nat.le_ge_cases k (List.length l)).
  - rewrite Nat.min_l by lia. apply firstn_skipn.
  - rewrite Nat.min_r by lia. rewrite firstn_all2, skipn_all2 by lia.
    apply app_nil_r.
Qed.

Lemma fill_reads_S {R} `{ReadSeeker R} n (b : bufio.Reader R) :
  bufio.fill_reads (S n) b =
  let '(rd', bs, e) := Read (bufio.rd b) (bufio.defaultBufSize - len (bufio.buf b)) in
  match e with
  | Some e' => bufio.mkReader rd' (bufio.buf b ++ bs) (Some e')
  | None => if len bs >? 0 then bufio.mkReader rd' (bufio.buf b ++ bs) (bufio.err b)
            else bufio.fill_reads n (bufio.mkReader rd' (bufio.buf b ++ bs) (bufio.err b))
  end.
Proof. reflexivity. Qed.

Lemma need_fill_true {R} `{ReadSeeker R} (b : bufio.Reader R) :
  bufio.need_fill b = true ->
  len (bufio.buf b) < utf8.UTFMax /\ utf8.FullRune (bufio.buf b) = false
  /\ bufio.err b = None.
Proof.
  unfold bufio.need_fill. intros Hn.
  apply andb_true_iff in Hn as [Hn _].
  apply andb_true_iff in Hn as [Hn He].
  apply andb_true_iff in Hn as [Hl Hf].
  apply Z.ltb_lt in Hl. apply negb_true_iff in Hf.
  destruct (bufio.err b); [discriminate | tauto].
Qed.

Lemma fill_strings b stream :
  Inv b stream -> bufio.need_fill b = true -> Inv (bufio.fill b) stream.
Proof.
  intros (Hs & Hi & He) Hn.
  apply need_fill_true in Hn as (Hl & _ & Hnone).
  unfold bufio.fill, bufio.maxConsecutiveEmptyReads.
  rewrite fill_reads_S.
  cbn [Read strings_Reader_ReadSeeker]. unfold strings.Reader_Read.
  destruct b as [[s i] buf err]. cbn [bufio.rd bufio.buf bufio.err strings.s strings.i] in *.
  subst err.
  destruct (i >=? len s) eqn:E; rewrite Z.geb_leb in E.
  - apply Z.leb_le in E. unfold Inv. cbn. rewrite app_nil_r.
    repeat split; auto.
  - apply Z.leb_gt in E.
    set (bs := firstn (Z.to_nat (bufio.defaultBufSize - len buf)) (skipn (Z.to_nat i) s)).
    assert (Hbs : 0 < len bs).
    { unfold bs. unfold utf8.UTFMax, bufio.defaultBufSize in *.
      rewrite len_firstn, len_skipn by lia. lia. }
    destruct (len bs >? 0) eqn:E'.
    2:{ rewrite Z.gtb_ltb in E'. apply Z.ltb_ge in E'. lia. }
    unfold Inv. cbn [bufio.rd bufio.buf bufio.err strings.s strings.i].
    repeat split; [| lia | now left].
    rewrite Hs, <- app_assoc. f_equal.
    rewrite skipn_add by lia.
    replace (Z.to_nat (len bs)) with (List.length bs) by (unfold len; lia).
    unfold bs. symmetry. apply firstn_skipn_length.
Qed.

Lemma fill_rune_strings fuel b stream :
  Inv b stream -> Inv (bufio.fill_rune fuel b) stream.
Proof.
  revert b. induction fuel as [|fuel IH]; intros b Hb; cbn [bufio.fill_rune].
  - now destruct (bufio.need_fill b).
  - destruct (bufio.need_fill b) eqn:E; [| exact Hb].
    apply IH. now apply fill_strings.
Qed.

Import utf8_facts.

Lemma Inv_app b stream :
  Inv b stream -> exists q, stream = bufio.buf b ++ q /\ (bufio.err b <> None -> q = []).
Proof.
  intros (Hs & Hi & He). eexists; split; [exact Hs |].
  intros Hne. destruct He as [He | [_ Hl]]; [congruence |].
  now apply skipn_all_len.
Qed.

Lemma need_fill_false (b : bufio.Reader strings.Reader) :
  bufio.need_fill b = false ->
  4 <= len (bufio.buf b) \/ utf8.FullRune (bufio.buf b) = true \/ bufio.err b <> None.
Proof.
  unfold bufio.need_fill, utf8.UTFMax, bufio.defaultBufSize.
  destruct (len (bufio.buf b) <? 4) eqn:E1; [| apply Z.ltb_ge in E1; auto].
  destruct (utf8.FullRune (bufio.buf b)); [auto |].
  destruct (bufio.err b); [right; right; discriminate |].
  apply Z.ltb_lt in E1.
  destruct (len (bufio.buf b) <? 4096) eqn:E2; [discriminate |].
  apply Z.ltb_ge in E2. lia.
Qed.

Lemma ReadRune_fast_path c t :
  (if b2z c >=? utf8.RuneSelf then utf8.DecodeRune (c :: t) else (b2z c, 1))
  = utf8.DecodeRune (c :: t).
Proof.
  destruct (b2z c >=? utf8.RuneSelf) eqn:E; [reflexivity |].
  rewrite Z.geb_leb in E. apply Z.leb_gt in E.
  now rewrite DecodeRune_ascii.
Qed.

Lemma ReadRune_strings b stream :
  Inv b stream ->
  match stream with
  | [] => exists b', bufio.ReadRune b = (b', (0, 0, Some io_EOF))
  | _ :: _ =>
      exists b',
        bufio.ReadRune b
        = (b', (fst (utf8.DecodeRune stream), snd (utf8.DecodeRune stream), None))
        /\ Inv b' (skipn (Z.to_nat (snd (utf8.DecodeRune stream))) stream)
  end.
Proof.
  intros Hb.
  pose proof (fill_rune_strings 4 b stream Hb) as Hb1.
  assert (Hdone : bufio.need_fill (bufio.fill_rune 4 b) = false).
  { apply fill_rune_done. unfold utf8.UTFMax. pose proof (len_nonneg (bufio.buf b)). lia. }
  unfold bufio.ReadRune. cbv zeta.
  set (b1 := bufio.fill_rune 4 b) in *. clearbody b1. clear Hb b.
  destruct (Inv_app _ _ Hb1) as (q & Hs & Hq).
  apply need_fill_false in Hdone.
  destruct (bufio.buf b1) as [|c t] eqn:Hbuf.
  - (* empty buffer: the pending error is io.EOF *)
    destruct Hdone as [H4 | [Hf | He]]; [cbn in H4; lia | discriminate |].
    destruct Hb1 as (_ & _ & [Hn | [Heof _]]); [congruence |].
    rewrite (Hq He) in Hs. subst stream. cbn [app].
    rewrite Heof. eauto.
  - subst stream. cbn [app].
    assert (Hdec : utf8.DecodeRune ((c :: t) ++ q) = utf8.DecodeRune (c :: t)).
    { apply DecodeRune_app; [discriminate |].
      destruct Hdone as [H4 | [Hf | He]]; auto. }
    cbn [app] in Hdec. rewrite ReadRune_fast_path, Hdec.
    pose proof (DecodeRune_size (c :: t) ltac:(discriminate)) as Hsz.
    destruct (utf8.DecodeRune (c :: t)) as [r size]. cbn [fst snd] in *.
    eexists; split; [reflexivity |].
    destruct Hb1 as (Hs & Hi & He). rewrite Hbuf in Hs.
    repeat split; cbn [bufio.rd bufio.buf bufio.err]; auto.
    change (c :: t ++ q) with ((c :: t) ++ q).
    rewrite skipn_app.
    replace (Z.to_nat size - List.length (c :: t))%nat with 0%nat
      by (unfold len in Hsz; lia).
    cbn [skipn]. f_equal.
    apply app_inv_head in Hs. exact Hs.
Qed.

Lemma Extract_loop_strings n : forall r rangeLen l br runes stream,
  Inv br stream -> Z.of_nat n <= l <= max_int ->
  Extract_loop n r rangeLen l br runes =
  match decode_n n stream with
  | inl rs => (string_of_runes (runes ++ rs), None)
  | inr k =>
      (str "", Some (RangeError r
         (msg_end r (to_uint (fst r + to_uint (to_int (rangeLen - (l - k))))))))
  end.
Proof.
  induction n as [|n IH]; intros r rangeLen l br runes stream Hb Hl.
  - cbn. now rewrite app_nil_r.
  - cbn [Extract_loop decode_n].
    pose proof (ReadRune_strings br stream Hb) as Hr.
    destruct stream as [|c stream].
    + destruct Hr as (b' & ->). cbn [errors_Is_EOF].
      now rewrite Z.sub_0_r.
    + destruct Hr as (b' & -> & Hb').
      destruct (utf8.DecodeRune (c :: stream)) as [run size]. cbn [fst snd] in *.
      rewrite (IH r rangeLen (to_int (l - 1)) b' (runes ++ [run]) _ Hb').
      * rewrite to_int_small by (unfold max_int in Hl; lia).
        destruct (decode_n n _) as [rs | k].
        -- now rewrite <- app_assoc.
        -- replace (l - 1 - k) with (l - (k + 1)) by lia. reflexivity.
      * rewrite to_int_small by (unfold max_int in Hl; lia). lia.
Qed.

(** ** ExtractString *)

Lemma to_int_idem z : to_int (to_int z) = to_int z.
Proof. apply to_int_small, to_int_range. Qed.

Lemma Inv_NewReader s i :
  0 <= i -> Inv (bufio.NewReader (strings.mkReader s i)) (skipn (Z.to_nat i) s).
Proof. intros Hi. repeat split; cbn; auto. Qed.

Lemma Len_range r : - 2 ^ 63 <= Len r < 2 ^ 63.
Proof. apply to_int_range. Qed.

(** What [ExtractString] computes, case by case: the two checks on the
    length, the seek, the probe of the start position and the decoding of
    [Len r] runes from the byte at offset [r[0]] on. *)
Theorem ExtractString_eq input r :
  ExtractString input r =
  if Len r =? 0 then (str "", None)
  else if Len r <? 0 then (str "", Some (RangeError r msg_negative))
  else if to_int (fst r) <? 0 then
    (str "", Some (seek_error r (errors_New "strings.Reader.Seek: negative position")))
  else if to_int (fst r) >=? len input then
    (str "", Some (RangeError r (msg_start r)))
  else
    match decode_n (Z.to_nat (Len r)) (skipn (Z.to_nat (to_int (fst r))) input) with
    | inl rs => (string_of_runes rs, None)
    | inr k => (str "", Some (RangeError r
                  (msg_end r (to_uint (fst r + to_uint (to_int k))))))
    end.
Proof.
  unfold ExtractString, Extract.
  destruct (Len r =? 0) eqn:E0; [reflexivity |].
  destruct (Len r <? 0) eqn:E1; [reflexivity |].
  apply Z.eqb_neq in E0. apply Z.ltb_ge in E1.
  cbn [Seek Read strings_Reader_ReadSeeker].
  unfold strings.Reader_Seek at 1. unfold strings.NewReader.
  cbn [strings.s strings.i].
  destruct (to_int (fst r) <? 0) eqn:E2; [reflexivity |].
  apply Z.ltb_ge in E2.
  unfold strings.Reader_Read. cbn [strings.s strings.i].
  destruct (to_int (fst r) >=? len input) eqn:E3; [reflexivity |].
  rewrite Z.geb_leb in E3. apply Z.leb_gt in E3.
  unfold strings.Reader_Seek. cbn [strings.s strings.i].
  set (bs := firstn (Z.to_nat 1) (skipn (Z.to_nat (to_int (fst r))) input)).
  assert (Hbs : len bs = 1).
  { unfold bs. rewrite len_firstn, len_skipn by lia. lia. }
  rewrite Hbs.
  replace (to_int (fst r) + 1 + -1) with (to_int (fst r)) by lia.
  rewrite to_int_idem.
  destruct (to_int (fst r) <? 0) eqn:E4; [apply Z.ltb_lt in E4; lia |].
  pose proof (Len_range r) as HL.
  rewrite (Extract_loop_strings _ _ _ _ _ _ _ (Inv_NewReader input _ E2))
    by (unfold max_int; lia).
  destruct (decode_n _ _) as [rs | k]; [reflexivity |].
  replace (Len r - (Len r - k)) with k by lia. reflexivity.
Qed.

(** ** Runes *)

Lemma skipn_size_length (p : list byte) size :
  1 <= size -> p <> [] ->
  (List.length (skipn (Z.to_nat size) p) < List.length p)%nat.
Proof.
  intros Hs Hp. rewrite length_skipn.
  destruct p; [congruence | cbn [List.length]; lia].
Qed.

Lemma decode_n_short n : forall p,
  (List.length p < n)%nat -> exists k, decode_n n p = inr k /\ 0 <= k <= len p.
Proof.
  induction n as [|n IH]; intros p Hp; [lia |].
  destruct p as [|c p]; cbn [decode_n].
  - exists 0. split; [reflexivity | cbn; lia].
  - pose proof (DecodeRune_size (c :: p) ltac:(discriminate)) as Hsz.
    destruct (utf8.DecodeRune (c :: p)) as [r size]. cbn [snd] in Hsz.
    destruct (IH (skipn (Z.to_nat size) (c :: p))) as (k & -> & Hk).
    + pose proof (skipn_size_length (c :: p) size ltac:(lia) ltac:(discriminate)).
      cbn [List.length] in *. lia.
    + exists (k + 1). split; [reflexivity |].
      rewrite len_skipn in Hk by lia. lia.
Qed.

Lemma ascii_only_cons b s :
  ascii_only (b :: s) <-> b2z b < utf8.RuneSelf /\ ascii_only s.
Proof. unfold ascii_only. split; [intros H; inversion H; auto | intros []; auto]. Qed.

Lemma ascii_only_app a b : ascii_only (a ++ b) <-> ascii_only a /\ ascii_only b.
Proof. apply Forall_app. Qed.

Lemma decode_n_ascii n : forall p,
  ascii_only (firstn n p) -> (n <= List.length p)%nat ->
  decode_n n p = inl (map b2z (firstn n p)).
Proof.
  induction n as [|n IH]; intros p Ha Hn; [reflexivity |].
  destruct p as [|c p]; [cbn in Hn; lia |].
  cbn [firstn] in Ha. apply ascii_only_cons in Ha as [Hc Ha].
  cbn [decode_n]. rewrite (DecodeRune_ascii c p Hc).
  change (skipn (Z.to_nat 1) (c :: p)) with p.
  rewrite IH by (cbn in Hn; auto; lia). reflexivity.
Qed.

Lemma string_of_runes_ascii s :
  ascii_only s -> string_of_runes (map b2z s) = s.
Proof.
  induction s as [|c s IH]; intros Ha; [reflexivity |].
  apply ascii_only_cons in Ha as [Hc Ha].
  unfold string_of_runes in *. cbn [map flat_map].
  rewrite (EncodeRune_ascii c Hc), IH by assumption. reflexivity.
Qed.

Lemma ascii_only_firstn n s : ascii_only s -> ascii_only (firstn n s).
Proof.
  intros Ha. rewrite <- (firstn_skipn n s) in Ha.
  now apply ascii_only_app in Ha.
Qed.

Lemma ascii_only_skipn n s : ascii_only s -> ascii_only (skipn n s).
Proof.
  intros Ha. rewrite <- (firstn_skipn n s) in Ha.
  now apply ascii_only_app in Ha.
Qed.

(** Unfolding [runes]. *)
Lemma runes_fuel_enough f1 : forall f2 p,
  (List.length p <= f1)%nat -> (List.length p <= f2)%nat ->
  runes_fuel f1 p = runes_fuel f2 p.
Proof.
  induction f1 as [|f1 IH]; intros f2 p H1 H2.
  - destruct p; [| cbn in H1; lia]. now destruct f2.
  - destruct p as [|c p]; [now destruct f2 |].
    destruct f2 as [|f2]; [cbn in H2; lia |].
    cbn [runes_fuel].
    pose proof (DecodeRune_size (c :: p) ltac:(discriminate)) as Hsz.
    destruct (utf8.DecodeRune (c :: p)) as [r size]. cbn [snd] in Hsz.
    pose proof (skipn_size_length (c :: p) size ltac:(lia) ltac:(discriminate)).
    cbn [List.length] in *.
    f_equal. apply IH; lia.
Qed.

Lemma runes_nil : runes [] = [].
Proof. reflexivity. Qed.

Lemma runes_cons c p :
  runes (c :: p) =
  fst (utf8.DecodeRune (c :: p))
  :: runes (skipn (Z.to_nat (snd (utf8.DecodeRune (c :: p)))) (c :: p)).
Proof.
  unfold runes at 1. cbn [List.length runes_fuel].
  pose proof (DecodeRune_size (c :: p) ltac:(discriminate)) as Hsz.
  destruct (utf8.DecodeRune (c :: p)) as [r size]. cbn [fst snd] in *.
  f_equal. unfold runes.
  pose proof (skipn_size_length (c :: p) size ltac:(lia) ltac:(discriminate)).
  cbn [List.length] in *.
  apply runes_fuel_enough; lia.
Qed.

Lemma decode_n_runes n : forall p,
  decode_n n p =
  if (n <=? List.length (runes p))%nat then inl (firstn n (runes p))
  else inr (len (runes p)).
Proof.
  induction n as [|n IH]; intros p; [reflexivity |].
  destruct p as [|c p]; [reflexivity |].
  cbn [decode_n]. rewrite runes_cons.
  destruct (utf8.DecodeRune (c :: p)) as [r size]. cbn [fst snd].
  rewrite IH. cbn [List.length firstn].
  change (S n <=? S ?m)%nat with (n <=? m)%nat.
  destruct (n <=? _)%nat; [reflexivity |].
  rewrite len_cons. f_equal. lia.
Qed.

Lemma runes_length p : (List.length (runes p) <= List.length p)%nat.
Proof.
  destruct (Nat.le_gt_cases (List.length (runes p)) (List.length p)) as [|Hgt];
    [assumption |].
  destruct (decode_n_short (List.length (runes p)) p Hgt) as (k & Hk & _).
  rewrite decode_n_runes, Nat.leb_refl in Hk. discriminate.
Qed.

Lemma runes_ascii_app a q :
  ascii_only a -> runes (a ++ q) = map b2z a ++ runes q.
Proof.
  induction a as [|c a IH]; intros Ha; [reflexivity |].
  apply ascii_only_cons in Ha as [Hc Ha].
  cbn [app]. rewrite runes_cons, (DecodeRune_ascii c (a ++ q) Hc).
  cbn [fst snd map app]. change (skipn (Z.to_nat 1) (c :: a ++ q)) with (a ++ q).
  now rewrite IH.
Qed.

(** ** Range lengths *)

Lemma Len_eq r :
  Range_wf r -> fst r <= snd r -> snd r - fst r < 2 ^ 63 -> Len r = snd r - fst r.
Proof. intros [H0 H1] Hle Hd. wrap_lia. Qed.

Lemma Len_pos_inv r :
  Range_wf r -> fst r <= max_int -> 0 < Len r -> Len r = snd r - fst r.
Proof. intros [H0 H1] Hle Hd. wrap_lia. Qed.

Lemma Len_negative r :
  Range_wf r -> snd r < fst r -> fst r - snd r <= 2 ^ 63 -> Len r < 0.
Proof. intros [H0 H1] Hlt Hd. wrap_lia. Qed.

(** The width of the span spliced by [ReplaceMany] is the length of the
    range, whatever the offset. *)
Lemma splice_width r off :
  0 <= to_int (to_int (fst r) + off) -> 0 <= to_int (to_int (snd r) + off) ->
  to_int (to_int (snd r) + off) - to_int (to_int (fst r) + off) = Len r.
Proof. intros HA HB. wrap_lia. Qed.

(** ** Extraction: the checks on the length *)

Lemma Extract_negative_length {R} `{ReadSeeker R} (input : R) (r : Range) :
  Len r < 0 -> Extract input r = (str "", Some (RangeError r msg_negative)).
Proof.
  intros Hl. unfold Extract.
  destruct (Len r =? 0) eqn:E0; [apply Z.eqb_eq in E0; lia |].
  destruct (Len r <? 0) eqn:E1; [reflexivity | apply Z.ltb_ge in E1; lia].
Qed.


(** C6 (zero-length range extraction): for every source, whatever its
    contents and wherever the range starts, [Extract] on a range of length 0
    returns the empty string and no error. *)
Theorem Extract_zero_length {R} `{ReadSeeker R} (input : R) (r : Range) :
  Len r = 0 -> Extract input r = (str "", None).
Proof.
  intros Hl. unfold Extract. now rewrite Hl.
Qed.

(** An empty range that starts past the end of the source. *)
Lemma Extract_zero_length_witness :
  Len (7, 7) = 0 /\ Extract (strings.NewReader (str "abc")) (7, 7) = (str "", None).
Proof.
  split; [reflexivity | apply Extract_zero_length; reflexivity].
Defined.

(** C5 (negative-length range rejection): [Extract] rejects the range
    [Range{5,2}] with a RangeError that mentions the negative length, but
    [Replace] has no such check: on a text of at least five bytes it returns a
    spliced string and no error, and on a shorter text it panics. *)
Theorem Replace_negative_range_not_rejected :
  (exists msg,
      ExtractString (str "This is a sentence.") (5, 2)
      = (str "", Some (RangeError (5, 2) msg))
      /\ mentions "negative length" msg = true)
  /\ Replace (str "This is a sentence.") (str "was") (5, 2)
     = Value (str "This wasis is a sentence.", None)
  /\ Replace (str "abc") (str "was") (5, 2) = Panics slice_bounds_out_of_range.
Proof.
  split; [| split]; [| reflexivity | reflexivity].
  exists msg_negative. split; reflexivity.
Qed.

(** C7, as stated, fails where the start offset does not fit an int64: the
    seek is refused and its error, not a RangeError, is returned. *)
Lemma ExtractString_past_end_seek_error :
  Range_wf (2 ^ 63, 2 ^ 63 + 1)
  /\ 0 < Len (2 ^ 63, 2 ^ 63 + 1)
  /\ len (str "a") < snd (2 ^ 63, 2 ^ 63 + 1)
  /\ ExtractString (str "a") (2 ^ 63, 2 ^ 63 + 1)
     = (str "", Some (seek_error (2 ^ 63, 2 ^ 63 + 1)
                        (errors_New "strings.Reader.Seek: negative position")))
  /\ is_RangeError (snd (ExtractString (str "a") (2 ^ 63, 2 ^ 63 + 1))) = false.
Proof.
  repeat split; try reflexivity; cbn; lia.
Qed.

(** A range of positive length that ends past the end of the text is
    refused with a RangeError, whether the start lies within the text or not. *)
Lemma ExtractString_end_past_input text r :
  Range_wf r -> fst r <= max_int -> 0 < Len r -> len text < snd r ->
  is_RangeError (snd (ExtractString text r)) = true.
Proof.
  intros Hwf Hmax Hpos Hend.
  pose proof (Len_pos_inv r Hwf Hmax Hpos) as HL.
  assert (H0 : to_int (fst r) = fst r) by (destruct Hwf; wrap_lia).
  rewrite ExtractString_eq, H0.
  destruct (Len r =? 0) eqn:E0; [apply Z.eqb_eq in E0; lia |].
  destruct (Len r <? 0) eqn:E1; [reflexivity |].
  destruct (fst r <? 0) eqn:E2; [apply Z.ltb_lt in E2; destruct Hwf as [[] _]; lia |].
  destruct (fst r >=? len text) eqn:E3; [reflexivity |].
  rewrite Z.geb_leb in E3. apply Z.leb_gt in E3. apply Z.ltb_ge in E2.
  destruct (decode_n_short (Z.to_nat (Len r)) (skipn (Z.to_nat (fst r)) text))
    as (k & -> & _); [| reflexivity].
  rewrite length_skipn. unfold len in *. lia.
Qed.

(** C7 (range past the end, amended): for every text and every range of
    positive length whose start fits an int64 and whose end lies past the end
    of the text, [ExtractString] fails with a RangeError carrying that range:
    "range start after input end" when the start is already at or past the
    end, and otherwise "range end after input end" with, as position, the
    start plus the number of runes that could be decoded. *)
Theorem ExtractString_past_end text r :
  Range_wf r -> fst r <= max_int -> 0 < Len r -> len text < snd r ->
  ExtractString text r =
  (str "", Some (RangeError r
     (if len text <=? fst r then msg_start r
      else msg_end r (fst r + len (runes (skipn (Z.to_nat (fst r)) text)))))).
Proof.
  intros Hwf Hmax Hpos Hend.
  pose proof (Len_pos_inv r Hwf Hmax Hpos) as HL.
  assert (H0 : to_int (fst r) = fst r) by (destruct Hwf; wrap_lia).
  rewrite ExtractString_eq, H0.
  destruct (Len r =? 0) eqn:E0; [apply Z.eqb_eq in E0; lia |].
  destruct (Len r <? 0) eqn:E1; [apply Z.ltb_lt in E1; lia |].
  destruct (fst r <? 0) eqn:E2; [apply Z.ltb_lt in E2; destruct Hwf as [[] _]; lia |].
  rewrite Z.geb_leb.
  destruct (len text <=? fst r) eqn:E3; [reflexivity |].
  apply Z.leb_gt in E3.
  rewrite decode_n_runes.
  set (rest := skipn (Z.to_nat (fst r)) text).
  assert (Hr : 0 <= len (runes rest) <= len rest).
  { pose proof (runes_length rest). unfold len. lia. }
  assert (Hrest : len rest = len text - fst r).
  { unfold rest. destruct Hwf as [[] _]. rewrite len_skipn by lia. lia. }
  destruct (Z.to_nat (Len r) <=? List.length (runes rest))%nat eqn:E4.
  - apply Nat.leb_le in E4. unfold len in *. lia.
  - do 4 f_equal.
    assert (Hk : 0 <= len (runes rest) < 2 ^ 63).
    { pose proof (Len_range r). lia. }
    destruct Hwf as [[] []].
    rewrite (to_int_small (len (runes rest))) by lia.
    rewrite (to_uint_small (len (runes rest))) by lia.
    apply to_uint_small. unfold max_int in *. lia.
Qed.

Lemma ExtractString_past_end_witness :
  ExtractString (str "This is a sentence.") (5, 30)
  = (str "", Some (RangeError (5, 30) "range end (pos 30) after input end (pos 19)")).
Proof.
  apply (ExtractString_past_end (str "This is a sentence.") (5, 30)).
  - unfold Range_wf, is_uint; cbn; lia.
  - unfold max_int; cbn; lia.
  - reflexivity.
  - reflexivity.
Defined.

(** ** Extraction: byte offsets and rune counts *)

(** C4, as stated, fails: the start of the range is used as a byte offset.
    In the three bytes of "éa" the range [1, 2) starts inside the two-byte
    character; [Extract] returns U+FFFD where the rune at index 1 is "a". *)
Lemma ExtractString_start_is_byte_offset :
  0 <= fst (1, 2) <= snd (1, 2)
  /\ ExtractString [xc3; xa9; x61] (1, 2) = ([xef; xbf; xbd], None)
  /\ rune_slice [xc3; xa9; x61] (fst (1, 2)) (snd (1, 2)) = str "a"
  /\ ExtractString [xc3; xa9; x61] (1, 2)
     <> (rune_slice [xc3; xa9; x61] (fst (1, 2)) (snd (1, 2)), None).
Proof.
  repeat split; try reflexivity; cbn; try lia.
  vm_compute. discriminate.
Qed.

Lemma skipn_runes_ascii_prefix input a :
  0 <= a <= len input -> ascii_only (firstn (Z.to_nat a) input) ->
  skipn (Z.to_nat a) (runes input) = runes (skipn (Z.to_nat a) input).
Proof.
  intros Ha Hascii.
  rewrite <- (firstn_skipn (Z.to_nat a) input) at 1.
  rewrite runes_ascii_app by assumption.
  rewrite skipn_app, skipn_all2; rewrite length_map, length_firstn.
  - replace (Z.to_nat a - Nat.min (Z.to_nat a) (List.length input))%nat
      with 0%nat by (unfold len in Ha; lia).
    reflexivity.
  - lia.
Qed.

(** C4 (rune positions, amended): [Extract] seeks to the byte offset
    [r[0]] and decodes [Len r] whole runes from there.  For an in-memory
    source that holds at least [r[1]] runes and whose characters before the
    start are all single-byte (so that byte and rune offsets of the start
    agree), the result is exactly the runes at rune indices [[r[0], r[1])]. *)
Theorem ExtractString_rune_positions input r :
  len input <= max_int ->
  0 <= fst r <= snd r ->
  snd r <= len (runes input) ->
  ascii_only (firstn (Z.to_nat (fst r)) input) ->
  ExtractString input r = (rune_slice input (fst r) (snd r), None).
Proof.
  intros Hin Hr Hend Hascii.
  assert (Hrl : len (runes input) <= len input).
  { pose proof (runes_length input). unfold len. lia. }
  assert (Hwf : Range_wf r) by (unfold Range_wf, is_uint, max_int in *; lia).
  assert (HL : Len r = snd r - fst r).
  { apply Len_eq; auto; unfold max_int in *; lia. }
  assert (H0 : to_int (fst r) = fst r).
  { apply to_int_small. unfold max_int in *. lia. }
  rewrite ExtractString_eq, H0, HL. unfold rune_slice.
  destruct (snd r - fst r =? 0) eqn:E0.
  { apply Z.eqb_eq in E0. rewrite E0. reflexivity. }
  apply Z.eqb_neq in E0.
  destruct (snd r - fst r <? 0) eqn:E1; [apply Z.ltb_lt in E1; lia |].
  destruct (fst r <? 0) eqn:E2; [apply Z.ltb_lt in E2; lia |].
  destruct (fst r >=? len input) eqn:E3.
  { rewrite Z.geb_leb in E3. apply Z.leb_le in E3. lia. }
  rewrite decode_n_runes, skipn_runes_ascii_prefix by (auto; lia).
  assert (Hlen : len (skipn (Z.to_nat (fst r)) (runes input))
                 = len (runes input) - fst r).
  { rewrite len_skipn by lia. lia. }
  rewrite skipn_runes_ascii_prefix in Hlen by (auto; lia).
  destruct (_ <=? _)%nat eqn:E4; [reflexivity |].
  apply Nat.leb_gt in E4. unfold len in *. lia.
Qed.

(** The two-byte character lies inside the range, after an ASCII prefix. *)
Lemma ExtractString_rune_positions_witness :
  ExtractString [x61; xc3; xa9; x62] (1, 3) = ([xc3; xa9; x62], None).
Proof.
  apply (ExtractString_rune_positions [x61; xc3; xa9; x62] (1, 3)).
  - unfold max_int; cbn; lia.
  - cbn; lia.
  - vm_compute. discriminate.
  - repeat constructor.
Defined.

(** ** Replace *)

(** C8 (bounds-check gap of Replace): the check of [Replace] compares the
    length of the range, not its end, with the length of the document.  For
    every document and every range that starts at or past the end of the
    document and whose length is positive and at most the document's,
    [Replace] passes the check, returns no RangeError and panics in its
    slice expressions. *)
Theorem Replace_out_of_bounds_slice d text r :
  Range_wf r -> len d <= max_int ->
  len d <= fst r -> 0 < Len r <= len d ->
  Replace d text r = Panics slice_bounds_out_of_range.
Proof.
  intros Hwf Hd Hstart [Hpos Hle].
  unfold Replace.
  destruct (Len r >? len d) eqn:E.
  { rewrite Z.gtb_ltb in E. apply Z.ltb_lt in E. lia. }
  assert (H0 : to_uint (fst r) = fst r) by (apply to_uint_small, Hwf).
  assert (H1 : to_uint (snd r) = snd r) by (apply to_uint_small, Hwf).
  rewrite H0, H1. unfold slice_to, slice_from.
  destruct ((0 <=? fst r) && (fst r <=? len d)) eqn:E0; [| reflexivity].
  cbn [bind].
  destruct ((0 <=? snd r) && (snd r <=? len d)) eqn:E1; [| reflexivity].
  apply andb_true_iff in E0 as [_ E0]. apply Z.leb_le in E0.
  apply andb_true_iff in E1 as [_ E1]. apply Z.leb_le in E1.
  exfalso. destruct Hwf as [[] []]. wrap_lia.
Qed.

Lemma Replace_out_of_bounds_slice_witness :
  Replace (str "abc") (str "x") (3, 4) = Panics slice_bounds_out_of_range.
Proof.
  apply (Replace_out_of_bounds_slice (str "abc") (str "x") (3, 4)).
  - unfold Range_wf, is_uint; cbn; lia.
  - unfold max_int; cbn; lia.
  - cbn; lia.
  - split; [reflexivity | cbn; lia].
Defined.

(** ** ReplaceMany: the splice comes before the extraction *)

Lemma ReplaceMany_end_past_input input repl :
  len input < to_uint (snd (Range_ repl)) ->
  ReplaceMany input [repl] = Panics slice_bounds_out_of_range.
Proof.
  intros Hend. unfold ReplaceMany. cbn [ReplaceMany_loop applied_offset fold_left].
  rewrite !Z.add_0_r, !to_int_idem.
  unfold slice_to, slice_from.
  destruct ((0 <=? to_int (fst (Range_ repl)))
            && (to_int (fst (Range_ repl)) <=? len input)); [| reflexivity].
  cbn [bind].
  destruct ((0 <=? to_int (snd (Range_ repl)))
            && (to_int (snd (Range_ repl)) <=? len input)) eqn:E1; [| reflexivity].
  apply andb_true_iff in E1 as [E0 E1]. apply Z.leb_le in E0, E1.
  exfalso. wrap_lia.
Qed.

(** C10 (splice before validation): for every input and every single
    replacement whose range has positive length, a start that fits an int64
    and an end past the end of the input, [ExtractString] would report a
    RangeError, but [ReplaceMany] panics in its slice expression before it
    calls it. *)
Theorem ReplaceMany_splices_before_validating input repl :
  Range_wf (Range_ repl) -> fst (Range_ repl) <= max_int ->
  0 < Len (Range_ repl) -> len input < snd (Range_ repl) ->
  is_RangeError (snd (ExtractString input (Range_ repl))) = true
  /\ ReplaceMany input [repl] = Panics slice_bounds_out_of_range.
Proof.
  intros Hwf Hmax Hpos Hend. split.
  - now apply ExtractString_end_past_input.
  - apply ReplaceMany_end_past_input.
    rewrite to_uint_small by apply Hwf. assumption.
Qed.

Lemma ReplaceMany_splices_before_validating_witness :
  is_RangeError (snd (ExtractString (str "abc") (0, 5))) = true
  /\ ReplaceMany (str "abc") [mkReplacement (0, 5) (str "x")]
     = Panics slice_bounds_out_of_range.
Proof.
  apply (ReplaceMany_splices_before_validating (str "abc")
           (mkReplacement (0, 5) (str "x"))).
  - unfold Range_wf, is_uint; cbn; lia.
  - unfold max_int; cbn; lia.
  - reflexivity.
  - reflexivity.
Defined.

(** ** ReplaceMany: failed extractions *)

Lemma ReplaceMany_loop_success input rs : forall output offsets out,
  ReplaceMany_loop input rs output offsets = Value (out, None) ->
  Forall (fun repl => snd (ExtractString input (Range_ repl)) = None) rs.
Proof.
  induction rs as [|repl rs IH]; intros output offsets out Hrun; [constructor |].
  cbn [ReplaceMany_loop] in Hrun.
  destruct (slice_to _ _); [| discriminate]. cbn [bind] in Hrun.
  destruct (slice_from _ _); [| discriminate]. cbn [bind] in Hrun.
  destruct (concat3 _ _ _); [| discriminate]. cbn [bind] in Hrun.
  destruct (ExtractString input (Range_ repl)) as [orgText [e|]] eqn:Hx;
    [discriminate |].
  constructor; [now rewrite Hx | eapply IH; exact Hrun].
Qed.

(** [ReplaceMany] returns no output when the original text of one of the
    replacements cannot be extracted: no replacement is skipped. *)
Lemma ReplaceMany_no_partial_success input rs out :
  Exists (fun repl => snd (ExtractString input (Range_ repl)) <> None) rs ->
  ReplaceMany input rs <> Value (out, None).
Proof.
  intros Hex Hrun. apply ReplaceMany_loop_success in Hrun.
  apply Exists_exists in Hex as (repl & Hin & Hne).
  rewrite Forall_forall in Hrun. now apply Hne, Hrun.
Qed.

(** C9 (no partial success): the original text of Range{0,5} cannot be
    extracted from "abc", and [ReplaceMany] returns no output for it; but it
    does not return an error either: it panics in the splice, which comes
    before the extraction. *)
Theorem ReplaceMany_failed_extraction_panics :
  is_RangeError (snd (ExtractString (str "abc") (0, 5))) = true
  /\ ReplaceMany (str "abc") [mkReplacement (0, 5) (str "x")]
     = Panics slice_bounds_out_of_range
  /\ forall out err, ReplaceMany (str "abc") [mkReplacement (0, 5) (str "x")]
                     <> Value (out, err).
Proof.
  split; [reflexivity | split; [reflexivity | discriminate]].
Qed.

(** ** Successful extractions *)

Lemma ExtractString_success_bounds input r :
  snd (ExtractString input r) = None ->
  Len r = 0
  \/ (0 < Len r /\ 0 <= to_int (fst r) /\ to_int (fst r) + Len r <= len input).
Proof.
  rewrite ExtractString_eq.
  destruct (Len r =? 0) eqn:E0; [apply Z.eqb_eq in E0; auto |].
  destruct (Len r <? 0) eqn:E1; [discriminate |].
  destruct (to_int (fst r) <? 0) eqn:E2; [discriminate |].
  destruct (to_int (fst r) >=? len input) eqn:E3; [discriminate |].
  apply Z.eqb_neq in E0. apply Z.ltb_ge in E1, E2.
  rewrite Z.geb_leb in E3. apply Z.leb_gt in E3.
  intros Hok. right. repeat split; try lia.
  set (rest := skipn (Z.to_nat (to_int (fst r))) input) in *.
  destruct (Nat.le_gt_cases (Z.to_nat (Len r)) (List.length rest)) as [Hle | Hgt].
  - assert (Hrest : len rest = len input - to_int (fst r)).
    { unfold rest. rewrite len_skipn by lia. lia. }
    unfold len in *. lia.
  - destruct (decode_n_short _ _ Hgt) as (k & Hk & _).
    rewrite Hk in Hok. discriminate.
Qed.

(** In a string of single-byte characters the extracted text has as many
    bytes as the range is long. *)
Lemma ExtractString_ascii_len input r :
  ascii_only input -> snd (ExtractString input r) = None ->
  len (fst (ExtractString input r)) = Len r.
Proof.
  intros Hascii Hok.
  destruct (ExtractString_success_bounds input r Hok) as [H0 | (Hpos & Hs & He)].
  { rewrite ExtractString_eq, H0. reflexivity. }
  rewrite ExtractString_eq.
  destruct (Len r =? 0) eqn:E0; [apply Z.eqb_eq in E0; lia |].
  destruct (Len r <? 0) eqn:E1; [apply Z.ltb_lt in E1; lia |].
  destruct (to_int (fst r) <? 0) eqn:E2; [apply Z.ltb_lt in E2; lia |].
  destruct (to_int (fst r) >=? len input) eqn:E3.
  { rewrite Z.geb_leb in E3. apply Z.leb_le in E3. lia. }
  set (rest := skipn (Z.to_nat (to_int (fst r))) input) in *.
  assert (Hrest : len rest = len input - to_int (fst r)).
  { unfold rest. rewrite len_skipn by lia. lia. }
  assert (Hra : ascii_only rest) by now apply ascii_only_skipn.
  rewrite decode_n_ascii.
  - cbn [fst].
    rewrite string_of_runes_ascii by now apply ascii_only_firstn.
    rewrite len_firstn by lia. lia.
  - now apply ascii_only_firstn.
  - unfold len in *. lia.
Qed.

(** An in-bounds range of single-byte characters is extracted as it is. *)
Lemma ExtractString_ascii_in_bounds input a b :
  ascii_only input -> len input <= max_int -> 0 <= a <= b -> b <= len input ->
  ExtractString input (a, b) = (sub input a b, None).
Proof.
  intros Hascii Hin Hab Hb.
  assert (HL : Len (a, b) = b - a).
  { apply Len_eq; unfold Range_wf, is_uint, max_int in *; cbn [fst snd]; lia. }
  rewrite ExtractString_eq, HL. cbn [fst snd]. unfold sub.
  rewrite to_int_small by (unfold max_int in *; lia).
  destruct (b - a =? 0) eqn:E0.
  { apply Z.eqb_eq in E0. rewrite E0. reflexivity. }
  apply Z.eqb_neq in E0.
  destruct (b - a <? 0) eqn:E1; [apply Z.ltb_lt in E1; lia |].
  destruct (a <? 0) eqn:E2; [apply Z.ltb_lt in E2; lia |].
  destruct (a >=? len input) eqn:E3.
  { rewrite Z.geb_leb in E3. apply Z.leb_le in E3. lia. }
  assert (Hrest : len (skipn (Z.to_nat a) input) = len input - a).
  { rewrite len_skipn by lia. lia. }
  rewrite decode_n_ascii.
  - rewrite string_of_runes_ascii; [reflexivity |].
    now apply ascii_only_firstn, ascii_only_skipn.
  - now apply ascii_only_firstn, ascii_only_skipn.
  - unfold len in *. lia.
Qed.

(** The same when only the bytes of the range are single-byte characters:
    the rest of the string may hold anything. *)
Lemma ExtractString_ascii_sub input a b :
  len input <= max_int -> 0 <= a <= b -> b <= len input ->
  ascii_only (sub input a b) ->
  ExtractString input (a, b) = (sub input a b, None).
Proof.
  intros Hin Hab Hb Hascii.
  assert (HL : Len (a, b) = b - a).
  { apply Len_eq; unfold Range_wf, is_uint, max_int in *; cbn [fst snd]; lia. }
  rewrite ExtractString_eq, HL. cbn [fst snd]. unfold sub in *.
  rewrite to_int_small by (unfold max_int in *; lia).
  destruct (b - a =? 0) eqn:E0.
  { apply Z.eqb_eq in E0. rewrite E0. reflexivity. }
  apply Z.eqb_neq in E0.
  destruct (b - a <? 0) eqn:E1; [apply Z.ltb_lt in E1; lia |].
  destruct (a <? 0) eqn:E2; [apply Z.ltb_lt in E2; lia |].
  destruct (a >=? len input) eqn:E3.
  { rewrite Z.geb_leb in E3. apply Z.leb_le in E3. lia. }
  assert (Hrest : len (skipn (Z.to_nat a) input) = len input - a).
  { rewrite len_skipn by lia. lia. }
  rewrite decode_n_ascii by (auto; unfold len in *; lia).
  now rewrite string_of_runes_ascii.
Qed.

Lemma ExtractString_span_len input r :
  ascii_only (span input r) -> snd (ExtractString input r) = None ->
  len (fst (ExtractString input r)) = Len r.
Proof.
  intros Hascii Hok.
  destruct (ExtractString_success_bounds input r Hok) as [H0 | (Hpos & Hs & He)].
  { rewrite ExtractString_eq, H0. reflexivity. }
  rewrite ExtractString_eq.
  destruct (Len r =? 0) eqn:E0; [apply Z.eqb_eq in E0; lia |].
  destruct (Len r <? 0) eqn:E1; [apply Z.ltb_lt in E1; lia |].
  destruct (to_int (fst r) <? 0) eqn:E2; [apply Z.ltb_lt in E2; lia |].
  destruct (to_int (fst r) >=? len input) eqn:E3.
  { rewrite Z.geb_leb in E3. apply Z.leb_le in E3. lia. }
  unfold span, sub in Hascii.
  replace (to_int (fst r) + Len r - to_int (fst r)) with (Len r) in Hascii by lia.
  set (rest := skipn (Z.to_nat (to_int (fst r))) input) in *.
  assert (Hrest : len rest = len input - to_int (fst r)).
  { unfold rest. rewrite len_skipn by lia. lia. }
  rewrite decode_n_ascii.
  - cbn [fst]. rewrite string_of_runes_ascii by assumption.
    rewrite len_firstn by lia. lia.
  - assumption.
  - unfold len in *. lia.
Qed.

(** ** Slices *)

Lemma slice_to_Value s i a :
  slice_to s i = Value a ->
  0 <= i <= len s /\ a = firstn (Z.to_nat i) s /\ len a = i.
Proof.
  unfold slice_to.
  destruct ((0 <=? i) && (i <=? len s)) eqn:E; [| discriminate].
  apply andb_true_iff in E as [E0 E1]. apply Z.leb_le in E0, E1.
  intros [= <-]. rewrite len_firstn by lia. repeat split; lia.
Qed.

Lemma slice_from_Value s i b :
  slice_from s i = Value b ->
  0 <= i <= len s /\ b = skipn (Z.to_nat i) s /\ len b = len s - i.
Proof.
  unfold slice_from.
  destruct ((0 <=? i) && (i <=? len s)) eqn:E; [| discriminate].
  apply andb_true_iff in E as [E0 E1]. apply Z.leb_le in E0, E1.
  intros [= <-]. rewrite len_skipn by lia. repeat split; lia.
Qed.

Lemma slice_to_ok s i :
  0 <= i <= len s -> slice_to s i = Value (firstn (Z.to_nat i) s).
Proof.
  intros Hi. unfold slice_to.
  destruct (0 <=? i) eqn:E0; [| apply Z.leb_gt in E0; lia].
  destruct (i <=? len s) eqn:E1; [reflexivity | apply Z.leb_gt in E1; lia].
Qed.

Lemma slice_from_ok s i :
  0 <= i <= len s -> slice_from s i = Value (skipn (Z.to_nat i) s).
Proof.
  intros Hi. unfold slice_from.
  destruct (0 <=? i) eqn:E0; [| apply Z.leb_gt in E0; lia].
  destruct (i <=? len s) eqn:E1; [reflexivity | apply Z.leb_gt in E1; lia].
Qed.

Lemma concat3_ok a b c :
  len a + len b + len c <= max_int -> concat3 a b c = Value (a ++ b ++ c).
Proof.
  intros Hl. unfold concat3.
  destruct (_ <=? _) eqn:E; [reflexivity | apply Z.leb_gt in E; lia].
Qed.

(** An index converted to [int] and the same index as a [uint] select the
    same slice of a string: past [max_int] both are out of range. *)
Lemma slice_to_int_uint s z :
  len s <= max_int -> slice_to s (to_int z) = slice_to s (to_uint z).
Proof.
  intros Hs. unfold slice_to.
  destruct (Z.le_gt_cases (to_uint z) max_int) as [Hle | Hgt].
  - replace (to_int z) with (to_uint z) by wrap_lia. reflexivity.
  - destruct (0 <=? to_int z) eqn:E0; [apply Z.leb_le in E0; exfalso; wrap_lia |].
    destruct (to_uint z <=? len s) eqn:E1; [apply Z.leb_le in E1; lia |].
    now rewrite andb_false_r.
Qed.

Lemma slice_from_int_uint s z :
  len s <= max_int -> slice_from s (to_int z) = slice_from s (to_uint z).
Proof.
  intros Hs. unfold slice_from.
  destruct (Z.le_gt_cases (to_uint z) max_int) as [Hle | Hgt].
  - replace (to_int z) with (to_uint z) by wrap_lia. reflexivity.
  - destruct (0 <=? to_int z) eqn:E0; [apply Z.leb_le in E0; exfalso; wrap_lia |].
    destruct (to_uint z <=? len s) eqn:E1; [apply Z.leb_le in E1; lia |].
    now rewrite andb_false_r.
Qed.

(** ** ReplaceMany with one replacement *)

(** C3 (single replacement equivalence): [ReplaceMany] with one replacement
    is to return what [Replace] returns, and an error exactly when [Replace]
    does.  On "This is a sentence." with Range{5,2} it does not: [Replace],
    which lacks the check for a negative length that [Extract] has, returns
    a string and no error, while [ReplaceMany] returns the error of the
    extraction. *)
Lemma ReplaceMany_single_differs_from_Replace :
  Replace (str "This is a sentence.") (str "was") (5, 2)
  = Value (str "This wasis is a sentence.", None)
  /\ ReplaceMany (str "This is a sentence.") [mkReplacement (5, 2) (str "was")]
     = Value (str "", Some (fmt_Errorf "extract text: "
                              (RangeError (5, 2) msg_negative)))
  /\ ReplaceMany (str "This is a sentence.") [mkReplacement (5, 2) (str "was")]
     <> Replace (str "This is a sentence.") (Text (mkReplacement (5, 2) (str "was")))
          (Range_ (mkReplacement (5, 2) (str "was"))).
Proof.
  split; [reflexivity | split; [reflexivity | vm_compute; discriminate]].
Qed.

(** X17 (one replacement, extraction succeeding):
    whenever the original text of the range of [repl] can be extracted from
    the document, [ReplaceMany] with that one replacement returns what
    [Replace] returns: the same string and no error, or the same panic. *)
Theorem ReplaceMany_single_eq_Replace doc repl :
  len doc <= max_int ->
  snd (ExtractString doc (Range_ repl)) = None ->
  ReplaceMany doc [repl] = Replace doc (Text repl) (Range_ repl).
Proof.
  intros Hdoc Hok.
  unfold ReplaceMany, Replace.
  cbn [ReplaceMany_loop applied_offset fold_left].
  rewrite !Z.add_0_r, !to_int_idem.
  rewrite (slice_to_int_uint doc _ Hdoc), (slice_from_int_uint doc _ Hdoc).
  destruct (Len (Range_ repl) >? len doc) eqn:E.
  { rewrite Z.gtb_ltb in E. apply Z.ltb_lt in E.
    destruct (ExtractString_success_bounds _ _ Hok) as [H0 | (Hpos & Hs & He)];
      pose proof (len_nonneg doc); lia. }
  destruct (slice_to doc _); [| reflexivity]. cbn [bind].
  destruct (slice_from doc _); [| reflexivity]. cbn [bind].
  destruct (concat3 _ _ _); [| reflexivity]. cbn [bind].
  destruct (ExtractString doc (Range_ repl)) as [orgText [e|]];
    [discriminate | reflexivity].
Qed.

Lemma ReplaceMany_single_eq_Replace_witness :
  ReplaceMany (str "This is a sentence.") [mkReplacement (5, 7) (str "was")]
  = Replace (str "This is a sentence.") (str "was") (5, 7)
  /\ Replace (str "This is a sentence.") (str "was") (5, 7)
     = Value (str "This was a sentence.", None).
Proof.
  split; [| reflexivity].
  apply (ReplaceMany_single_eq_Replace (str "This is a sentence.")
           (mkReplacement (5, 7) (str "was"))).
  - unfold max_int; cbn; lia.
  - reflexivity.
Defined.



(** ** ReplaceMany: the length of the output *)

Lemma sum_Z_cons x l : sum_Z (x :: l) = x + sum_Z l.
Proof. reflexivity. Qed.

(** The drift of every replacement is the length of its text minus the
    length of its range. *)
Lemma ReplaceMany_loop_length input rs : forall output offsets out,
  ReplaceMany_loop input rs output offsets = Value (out, None) ->
  len out
  = len output + sum_Z (map (fun repl => len (Text repl) - Len (Range_ repl)) rs).
Proof.
  induction rs as [|repl rs IH]; intros output offsets out Hrun.
  - cbn in Hrun. injection Hrun as <-. cbn. lia.
  - cbn [ReplaceMany_loop] in Hrun.
    destruct (slice_to _ _) as [a|] eqn:Ha; [| discriminate]. cbn [bind] in Hrun.
    destruct (slice_from _ _) as [b|] eqn:Hb; [| discriminate]. cbn [bind] in Hrun.
    unfold concat3 in Hrun.
    destruct (_ <=? max_int); [| discriminate]. cbn [bind] in Hrun.
    destruct (ExtractString input (Range_ repl)) as [orgText [e|]];
      [discriminate |].
    apply IH in Hrun. rewrite Hrun. cbn [map]. rewrite sum_Z_cons.
    apply slice_to_Value in Ha as ([Ha0 _] & _ & Hla).
    apply slice_from_Value in Hb as ([Hb0 _] & _ & Hlb).
    pose proof (splice_width (Range_ repl) _ Ha0 Hb0).
    rewrite !len_app, Hla, Hlb. lia.
Qed.

(** C1 (length conservation): the output of [ReplaceMany] is to be as long
    as the document plus, for every replacement, the length of its text
    minus the length of the original text; the code itself records that
    difference, [lenDiff], as the shift of the later ranges.  On a range
    that holds a multi-byte character it does not hold: the range [0, 2) of
    "éa" is extracted as the two runes "éa" (three bytes) while two bytes
    are spliced out, so the output "xa" has two bytes where the formula
    gives one. *)
Lemma ReplaceMany_length_multibyte :
  ReplaceMany [xc3; xa9; x61] [mkReplacement (0, 2) (str "x")]
  = Value (str "xa", None)
  /\ ExtractString [xc3; xa9; x61] (0, 2) = ([xc3; xa9; x61], None)
  /\ len (str "xa")
     <> len [xc3; xa9; x61]
        + sum_Z (map (fun repl =>
                        len (Text repl)
                        - len (fst (ExtractString [xc3; xa9; x61] (Range_ repl))))
                   [mkReplacement (0, 2) (str "x")]).
Proof.
  split; [reflexivity | split; [reflexivity | vm_compute; discriminate]].
Qed.

(** X16 (length of the output):
    whenever [ReplaceMany] returns an output, its length is the length of
    the document plus, for every replacement, the length of its text minus
    the length of its range; when the bytes that every range covers are
    single-byte characters, the length of the range is the length of the
    original text extracted at it, whatever the rest of the document
    holds. *)
Theorem ReplaceMany_length doc rs out :
  ReplaceMany doc rs = Value (out, None) ->
  len out
  = len doc + sum_Z (map (fun repl => len (Text repl) - Len (Range_ repl)) rs)
  /\ (Forall (fun repl => ascii_only (span doc (Range_ repl))) rs ->
      len out
      = len doc
        + sum_Z (map (fun repl =>
                        len (Text repl)
                        - len (fst (ExtractString doc (Range_ repl)))) rs)).
Proof.
  intros Hrun. split.
  - now apply ReplaceMany_loop_length in Hrun.
  - intros Hascii.
    pose proof (ReplaceMany_loop_success _ _ _ _ _ Hrun) as Hok.
    apply ReplaceMany_loop_length in Hrun. rewrite Hrun. do 2 f_equal.
    apply map_ext_in. intros repl Hin.
    rewrite Forall_forall in Hok, Hascii.
    now rewrite ExtractString_span_len by auto.
Qed.

Lemma ReplaceMany_length_witness :
  ReplaceMany [xc3; xa9; x20; x61; x62; x63]
    [mkReplacement (3, 4) (str "xyz"); mkReplacement (5, 6) (str "")]
  = Value ([xc3; xa9; x20; x78; x79; x7a; x62], None)
  /\ len [xc3; xa9; x20; x78; x79; x7a; x62]
     = len [xc3; xa9; x20; x61; x62; x63]
       + sum_Z (map (fun repl => len (Text repl) - Len (Range_ repl))
                  [mkReplacement (3, 4) (str "xyz"); mkReplacement (5, 6) (str "")])
  /\ len [xc3; xa9; x20; x78; x79; x7a; x62]
     = len [xc3; xa9; x20; x61; x62; x63]
       + sum_Z (map (fun repl =>
                       len (Text repl)
                       - len (fst (ExtractString [xc3; xa9; x20; x61; x62; x63]
                                     (Range_ repl))))
                  [mkReplacement (3, 4) (str "xyz"); mkReplacement (5, 6) (str "")]).
Proof.
  destruct (ReplaceMany_length [xc3; xa9; x20; x61; x62; x63]
              [mkReplacement (3, 4) (str "xyz"); mkReplacement (5, 6) (str "")]
              [xc3; xa9; x20; x78; x79; x7a; x62] eq_refl) as [H1 H2].
  split; [reflexivity | split; [exact H1 | apply H2]].
  repeat constructor.
Defined.

(** ** ReplaceMany with two replacements *)

Lemma firstn_Z_app_r {A} (l1 l2 : list A) i :
  len l1 <= i ->
  firstn (Z.to_nat i) (l1 ++ l2) = l1 ++ firstn (Z.to_nat (i - len l1)) l2.
Proof.
  intros Hi. rewrite firstn_app, firstn_all2 by (unfold len in Hi; lia).
  do 2 f_equal. unfold len. lia.
Qed.

Lemma skipn_Z_app_r {A} (l1 l2 : list A) i :
  len l1 <= i ->
  skipn (Z.to_nat i) (l1 ++ l2) = skipn (Z.to_nat (i - len l1)) l2.
Proof.
  intros Hi. rewrite skipn_app, skipn_all2 by (unfold len in Hi; lia).
  cbn [app]. f_equal. unfold len. lia.
Qed.

Lemma firstn_Z_app_l {A} (l1 l2 : list A) i :
  i <= len l1 -> firstn (Z.to_nat i) (l1 ++ l2) = firstn (Z.to_nat i) l1.
Proof.
  intros Hi. rewrite firstn_app.
  replace (Z.to_nat i - List.length l1)%nat with 0%nat by (unfold len in Hi; lia).
  cbn [firstn]. apply app_nil_r.
Qed.

Lemma skipn_Z_app_l {A} (l1 l2 : list A) i :
  i <= len l1 -> skipn (Z.to_nat i) (l1 ++ l2) = skipn (Z.to_nat i) l1 ++ l2.
Proof.
  intros Hi. rewrite skipn_app.
  replace (Z.to_nat i - List.length l1)%nat with 0%nat by (unfold len in Hi; lia).
  reflexivity.
Qed.

Lemma firstn_Z_firstn {A} (l : list A) i j :
  i <= j -> firstn (Z.to_nat i) (firstn (Z.to_nat j) l) = firstn (Z.to_nat i) l.
Proof.
  intros Hi. rewrite firstn_firstn. f_equal. lia.
Qed.

Lemma skipn_Z_firstn {A} (l : list A) i j :
  0 <= i <= j ->
  skipn (Z.to_nat i) (firstn (Z.to_nat j) l)
  = firstn (Z.to_nat (j - i)) (skipn (Z.to_nat i) l).
Proof.
  intros Hi. rewrite skipn_firstn_comm. f_equal. lia.
Qed.

Lemma len_sub s i j : 0 <= i <= j -> j <= len s -> len (sub s i j) = j - i.
Proof.
  intros Hi Hj. unfold sub. rewrite len_firstn, len_skipn by lia. lia.
Qed.

(** One round of the loop of [ReplaceMany] for an in-bounds range that
    covers single-byte characters only, when the shifted range lies within
    the working string. *)
Lemma ReplaceMany_loop_step_sub input repl rest output offsets a b off :
  Range_ repl = (a, b) ->
  applied_offset offsets (a, b) = off ->
  ascii_only (sub input a b) ->
  len input <= max_int -> 0 <= a <= b -> b <= len input ->
  0 <= a + off -> b + off <= len output -> len output <= max_int ->
  len output + len (Text repl) - (b - a) <= max_int ->
  ReplaceMany_loop input (repl :: rest) output offsets =
  ReplaceMany_loop input rest
    (firstn (Z.to_nat (a + off)) output ++ Text repl
     ++ skipn (Z.to_nat (b + off)) output)
    (if len (Text repl) - (b - a) =? 0 then offsets
     else offsets ++ [mkOffset (b + off) (len (Text repl) - (b - a))]).
Proof.
  intros Hr Hoff Hascii Hin Hab Hb HA HB Hout Hcat.
  cbn [ReplaceMany_loop]. rewrite Hr, Hoff. cbn [fst snd].
  pose proof (len_nonneg (Text repl)) as Ht.
  replace (to_int (to_int a + off)) with (a + off) by wrap_lia.
  replace (to_int (to_int b + off)) with (b + off) by wrap_lia.
  rewrite slice_to_ok, slice_from_ok by lia. cbn [bind].
  rewrite concat3_ok by (rewrite len_firstn, len_skipn by lia; lia).
  cbn [bind].
  rewrite ExtractString_ascii_sub by assumption.
  rewrite len_sub by lia.
  replace (to_int (len (Text repl) - (b - a))) with (len (Text repl) - (b - a))
    by wrap_lia.
  replace (to_uint (b + to_uint off)) with (b + off) by wrap_lia.
  reflexivity.
Qed.

(** The same for a document of single-byte characters. *)
Lemma ReplaceMany_loop_step input repl rest output offsets a b off :
  Range_ repl = (a, b) ->
  applied_offset offsets (a, b) = off ->
  ascii_only input -> len input <= max_int -> 0 <= a <= b -> b <= len input ->
  0 <= a + off -> b + off <= len output -> len output <= max_int ->
  len output + len (Text repl) - (b - a) <= max_int ->
  ReplaceMany_loop input (repl :: rest) output offsets =
  ReplaceMany_loop input rest
    (firstn (Z.to_nat (a + off)) output ++ Text repl
     ++ skipn (Z.to_nat (b + off)) output)
    (if len (Text repl) - (b - a) =? 0 then offsets
     else offsets ++ [mkOffset (b + off) (len (Text repl) - (b - a))]).
Proof.
  intros Hr Hoff Hascii Hin Hab Hb HA HB Hout Hcat.
  apply ReplaceMany_loop_step_sub; auto.
  unfold sub. now apply ascii_only_firstn, ascii_only_skipn.
Qed.

(** The offset recorded for a range that holds a multi-byte character is
    wrong: in "éab" the range [0, 2) is extracted as two runes (three bytes)
    while two bytes are spliced out, so a later replacement at [3, 4) is
    applied one byte too early, and the two orders differ. *)
Lemma ReplaceMany_multibyte_offset :
  ReplaceMany [xc3; xa9; x61; x62]
    [mkReplacement (0, 2) (str "x"); mkReplacement (3, 4) (str "y")]
  = Value (str "xyb", None)
  /\ ReplaceMany [xc3; xa9; x61; x62]
       [mkReplacement (3, 4) (str "y"); mkReplacement (0, 2) (str "x")]
     = Value (str "xay", None).
Proof.
  split; reflexivity.
Qed.

(** C2, as stated, fails: two empty ranges at the same offset do not
    overlap and lie within the document, yet their texts are inserted in
    the order of the replacements. *)
Lemma ReplaceMany_order_dependent :
  ReplaceMany (str "ab")
    [mkReplacement (1, 1) (str "x"); mkReplacement (1, 1) (str "y")]
  = Value (str "axyb", None)
  /\ ReplaceMany (str "ab")
       [mkReplacement (1, 1) (str "y"); mkReplacement (1, 1) (str "x")]
     = Value (str "ayxb", None)
  /\ ReplaceMany (str "ab")
       [mkReplacement (1, 1) (str "x"); mkReplacement (1, 1) (str "y")]
     <> ReplaceMany (str "ab")
          [mkReplacement (1, 1) (str "y"); mkReplacement (1, 1) (str "x")].
Proof.
  split; [reflexivity | split; [reflexivity | vm_compute; discriminate]].
Qed.

Lemma applied_offset_nil r : applied_offset [] r = 0.
Proof. reflexivity. Qed.

Lemma applied_offset_one s d r :
  applied_offset [mkOffset s d] r = if s <=? to_uint (fst r) then to_int d else 0.
Proof. reflexivity. Qed.

(** C2 (order independence, amended): for every document and two
    replacements whose ranges lie within the document, the first ending at
    or before the start of the second, which are not both empty at the same
    offset and which cover single-byte characters only (the rest of the
    document may hold anything), [ReplaceMany] returns the same output in
    both orders: the document with the two spans replaced. *)
Theorem ReplaceMany_order_independent doc r1 r2 :
  ascii_only (sub doc (fst (Range_ r1)) (snd (Range_ r1))) ->
  ascii_only (sub doc (fst (Range_ r2)) (snd (Range_ r2))) ->
  0 <= fst (Range_ r1) <= snd (Range_ r1) ->
  snd (Range_ r1) <= fst (Range_ r2) ->
  fst (Range_ r2) <= snd (Range_ r2) ->
  snd (Range_ r2) <= len doc ->
  fst (Range_ r1) < snd (Range_ r2) ->
  len doc + len (Text r1) + len (Text r2) <= max_int ->
  ReplaceMany doc [r1; r2]
  = Value (sub doc 0 (fst (Range_ r1)) ++ Text r1
           ++ sub doc (snd (Range_ r1)) (fst (Range_ r2)) ++ Text r2
           ++ skipn (Z.to_nat (snd (Range_ r2))) doc, None)
  /\ ReplaceMany doc [r2; r1] = ReplaceMany doc [r1; r2].
Proof.
  destruct r1 as [[a1 b1] t1], r2 as [[a2 b2] t2]. cbn [Range_ Text fst snd].
  intros Hascii1 Hascii2 H1 H12 H2 Hb Hne Hsize.
  pose proof (len_nonneg t1) as Ht1. pose proof (len_nonneg t2) as Ht2.
  pose proof (len_nonneg doc) as Hd.
  set (d1 := len t1 - (b1 - a1)). set (d2 := len t2 - (b2 - a2)).
  assert (Hleft :
    ReplaceMany doc [mkReplacement (a1, b1) t1; mkReplacement (a2, b2) t2]
    = Value (sub doc 0 a1 ++ t1 ++ sub doc b1 a2 ++ t2
             ++ skipn (Z.to_nat b2) doc, None)).
  { unfold ReplaceMany.
    rewrite (ReplaceMany_loop_step_sub doc _ _ doc [] a1 b1 0) by
      (try reflexivity; auto; cbn [Text]; lia).
    cbn [Text]. fold d1. rewrite !Z.add_0_r.
    set (out1 := firstn (Z.to_nat a1) doc ++ t1 ++ skipn (Z.to_nat b1) doc).
    assert (Hout1 : len out1 = len doc + d1).
    { unfold out1, d1. rewrite !len_app, len_firstn, len_skipn by lia. lia. }
    set (offs := if d1 =? 0 then [] else [] ++ [mkOffset b1 d1]).
    assert (Hoff : applied_offset offs (a2, b2) = d1).
    { unfold offs. destruct (d1 =? 0) eqn:E.
      - apply Z.eqb_eq in E. now rewrite E.
      - cbn [app]. rewrite applied_offset_one. cbn [fst].
        rewrite to_uint_small by (unfold is_uint, max_int in *; lia).
        destruct (b1 <=? a2) eqn:E2; [| apply Z.leb_gt in E2; lia].
        apply to_int_small. unfold d1, max_int in *. lia. }
    rewrite (ReplaceMany_loop_step_sub doc _ _ out1 offs a2 b2 d1) by
      (try reflexivity; auto; cbn [Text]; unfold d1 in *; lia).
    cbn [ReplaceMany_loop Text]. do 2 f_equal.
    unfold out1, sub. cbn [Z.to_nat skipn].
    replace (Z.to_nat (a1 - 0)) with (Z.to_nat a1) by lia.
    rewrite firstn_Z_app_r by (rewrite len_firstn by lia; lia).
    rewrite firstn_Z_app_r by (rewrite len_firstn by lia; unfold d1; lia).
    rewrite skipn_Z_app_r by (rewrite len_firstn by lia; unfold d1; lia).
    rewrite skipn_Z_app_r by (rewrite len_firstn by lia; unfold d1; lia).
    rewrite len_firstn by lia.
    rewrite <- skipn_add by (unfold d1; lia).
    rewrite <- !app_assoc.
    replace (a2 + d1 - Z.min a1 (len doc) - len t1) with (a2 - b1)
      by (unfold d1; lia).
    replace (b1 + (b2 + d1 - Z.min a1 (len doc) - len t1)) with b2
      by (unfold d1; lia).
    reflexivity. }
  split; [exact Hleft |].
  rewrite Hleft. unfold ReplaceMany.
  rewrite (ReplaceMany_loop_step_sub doc _ _ doc [] a2 b2 0) by
    (try reflexivity; auto; cbn [Text]; lia).
  cbn [Text]. fold d2. rewrite !Z.add_0_r.
  set (out1 := firstn (Z.to_nat a2) doc ++ t2 ++ skipn (Z.to_nat b2) doc).
  assert (Hout1 : len out1 = len doc + d2).
  { unfold out1, d2. rewrite !len_app, len_firstn, len_skipn by lia. lia. }
  set (offs := if d2 =? 0 then [] else [] ++ [mkOffset b2 d2]).
  assert (Hoff : applied_offset offs (a1, b1) = 0).
  { unfold offs. destruct (d2 =? 0) eqn:E; [reflexivity |].
    cbn [app]. rewrite applied_offset_one. cbn [fst].
    rewrite to_uint_small by (unfold is_uint, max_int in *; lia).
    destruct (b2 <=? a1) eqn:E2; [apply Z.leb_le in E2; lia | reflexivity]. }
  rewrite (ReplaceMany_loop_step_sub doc _ _ out1 offs a1 b1 0) by
    (try reflexivity; auto; cbn [Text]; unfold d2 in *; lia).
  cbn [ReplaceMany_loop Text]. rewrite !Z.add_0_r. do 2 f_equal.
  unfold out1, sub. cbn [Z.to_nat skipn].
  replace (Z.to_nat (a1 - 0)) with (Z.to_nat a1) by lia.
  rewrite firstn_Z_app_l by (rewrite len_firstn by lia; lia).
  rewrite firstn_Z_firstn by lia.
  rewrite skipn_Z_app_l by (rewrite len_firstn by lia; lia).
  rewrite skipn_Z_firstn by lia.
  reflexivity.
Qed.

Lemma ReplaceMany_order_independent_witness :
  ReplaceMany [xc3; xa9; x61; x62; xc3; xa9]
    [mkReplacement (2, 3) (str "xx"); mkReplacement (3, 4) (str "y")]
  = Value ([xc3; xa9; x78; x78; x79; xc3; xa9], None)
  /\ ReplaceMany [xc3; xa9; x61; x62; xc3; xa9]
       [mkReplacement (3, 4) (str "y"); mkReplacement (2, 3) (str "xx")]
     = ReplaceMany [xc3; xa9; x61; x62; xc3; xa9]
         [mkReplacement (2, 3) (str "xx"); mkReplacement (3, 4) (str "y")].
Proof.
  apply (ReplaceMany_order_independent [xc3; xa9; x61; x62; xc3; xa9]
           (mkReplacement (2, 3) (str "xx")) (mkReplacement (3, 4) (str "y"))).
  - repeat constructor.
  - repeat constructor.
  - cbn; lia.
  - cbn; lia.
  - cbn; lia.
  - cbn; lia.
  - cbn; lia.
  - unfold max_int; cbn; lia.
Defined.

(** * Further properties *)

(** ** Replace within bounds *)

Lemma Replace_splice text repl a b :
  len text <= max_int ->
  0 <= a <= b -> b <= len text ->
  len text - (b - a) + len repl <= max_int ->
  Replace text repl (a, b)
  = Value (firstn (Z.to_nat a) text ++ repl ++ skipn (Z.to_nat b) text, None).
Proof.
  intros Hin Hab Hb Hsize. unfold Replace.
  assert (HL : Len (a, b) = b - a).
  { apply Len_eq; unfold Range_wf, is_uint, max_int in *; cbn [fst snd]; lia. }
  rewrite HL. cbn [fst snd].
  destruct (b - a >? len text) eqn:E.
  { rewrite Z.gtb_ltb in E. apply Z.ltb_lt in E. lia. }
  rewrite !to_uint_small by (unfold max_int in *; lia).
  rewrite slice_to_ok, slice_from_ok by lia. cbn [bind].
  rewrite concat3_ok by (rewrite len_firstn, len_skipn by lia; lia).
  reflexivity.
Qed.

(** X1 (replacement within bounds):
    for a range within the text, [Replace] returns the text with the span
    of the range replaced, and no error. *)
Theorem Replace_in_bounds text repl a b :
  len text <= max_int ->
  0 <= a <= b -> b <= len text ->
  len text - (b - a) + len repl <= max_int ->
  Replace text repl (a, b)
  = Value (firstn (Z.to_nat a) text ++ repl ++ skipn (Z.to_nat b) text, None).
Proof. apply Replace_splice. Qed.

Lemma Replace_in_bounds_witness :
  Replace (str "This is a sentence.") (str "was") (5, 7)
  = Value (str "This was a sentence.", None).
Proof.
  apply (Replace_in_bounds (str "This is a sentence.") (str "was") 5 7).
  - unfold max_int; cbn; lia.
  - lia.
  - cbn; lia.
  - unfold max_int; cbn; lia.
Defined.

Lemma len_splice (text repl : gostring) a b :
  0 <= a <= b -> b <= len text ->
  len (firstn (Z.to_nat a) text ++ repl ++ skipn (Z.to_nat b) text)
  = len text - (b - a) + len repl.
Proof.
  intros Hab Hb. rewrite !len_app, len_firstn, len_skipn by lia. lia.
Qed.

(** What a successful [Replace] returns. *)
Lemma Replace_success text repl r out :
  Replace text repl r = Value (out, None) ->
  out = firstn (Z.to_nat (to_uint (fst r))) text ++ repl
        ++ skipn (Z.to_nat (to_uint (snd r))) text
  /\ to_uint (fst r) <= len text /\ to_uint (snd r) <= len text
  /\ len out <= max_int.
Proof.
  unfold Replace.
  destruct (Len r >? len text); [discriminate |].
  destruct (slice_to _ _) as [x|] eqn:Hx; [| discriminate].
  destruct (slice_from _ _) as [y|] eqn:Hy; [| discriminate].
  cbn [bind]. unfold concat3.
  destruct (_ <=? max_int) eqn:E; [| discriminate].
  cbn [bind]. intros [= <-].
  apply slice_to_Value in Hx as (Hx & -> & _).
  apply slice_from_Value in Hy as (Hy & -> & _).
  apply Z.leb_le in E. rewrite !len_app. repeat split; lia.
Qed.

(** X2 (undoing a replacement):
    [Replace] can be undone: replacing the new span by the original text
    of the range gives the text back. *)
Theorem Replace_undo text repl a b out :
  len text <= max_int ->
  0 <= a <= b -> b <= len text ->
  Replace text repl (a, b) = Value (out, None) ->
  Replace out (sub text a b) (a, a + len repl) = Value (text, None).
Proof.
  intros Hin Hab Hb Hrun.
  pose proof (len_nonneg repl) as Hrepl.
  assert (Hsize : len text - (b - a) + len repl <= max_int).
  { apply Replace_success in Hrun as (-> & _ & _ & Hlen). cbn [fst snd] in Hlen.
    rewrite !to_uint_small in Hlen by (unfold max_int in *; lia).
    rewrite len_splice in Hlen by lia. exact Hlen. }
  rewrite Replace_splice in Hrun by assumption.
  injection Hrun as <-.
  rewrite Replace_splice.
  - do 2 f_equal.
    rewrite firstn_Z_app_l by (rewrite len_firstn by lia; lia).
    rewrite firstn_Z_firstn by lia.
    rewrite skipn_Z_app_r by (rewrite len_firstn by lia; lia).
    rewrite len_firstn by lia.
    rewrite skipn_Z_app_r by lia.
    replace (a + len repl - Z.min a (len text) - len repl) with 0 by lia.
    cbn [Z.to_nat skipn]. unfold sub.
    rewrite <- (firstn_skipn (Z.to_nat a) text) at 4.
    f_equal.
    rewrite <- (firstn_skipn (Z.to_nat (b - a)) (skipn (Z.to_nat a) text)) at 2.
    f_equal. rewrite skipn_skipn. f_equal. lia.
  - rewrite len_splice by lia. lia.
  - lia.
  - rewrite len_splice by lia. lia.
  - rewrite len_splice, len_sub by lia. lia.
Qed.

Lemma Replace_undo_witness :
  Replace (str "This was a sentence.") (sub (str "This is a sentence.") 5 7)
    (5, 5 + len (str "was"))
  = Value (str "This is a sentence.", None).
Proof.
  apply (Replace_undo (str "This is a sentence.") (str "was") 5 7
           (str "This was a sentence.")).
  - unfold max_int; cbn; lia.
  - lia.
  - cbn; lia.
  - reflexivity.
Defined.

(** ** Extraction of single-byte text *)

(** X3 (extraction of a single-byte span):
    a range within the text whose bytes are all single-byte characters is
    extracted as it is, whatever the rest of the text holds. *)
Theorem ExtractString_ascii_range input a b :
  len input <= max_int -> 0 <= a <= b -> b <= len input ->
  ascii_only (sub input a b) ->
  ExtractString input (a, b) = (sub input a b, None).
Proof. apply ExtractString_ascii_sub. Qed.

Lemma ExtractString_ascii_range_witness :
  ExtractString [xc3; xa9; x61; x62] (2, 4) = (str "ab", None).
Proof.
  apply (ExtractString_ascii_range [xc3; xa9; x61; x62] 2 4).
  - unfold max_int; cbn; lia.
  - lia.
  - cbn; lia.
  - repeat constructor.
Defined.

(** X4 (reading a replacement back):
    what [Replace] writes, [ExtractString] reads back: after a replacement
    by a text of single-byte characters, the range that starts where the
    replaced one did and is as long as the new text holds that text. *)
Theorem Replace_then_Extract text repl a b out :
  len text <= max_int ->
  0 <= a <= b -> b <= len text ->
  ascii_only repl ->
  Replace text repl (a, b) = Value (out, None) ->
  ExtractString out (a, a + len repl) = (repl, None).
Proof.
  intros Hin Hab Hb Hascii Hrun.
  pose proof (len_nonneg repl) as Hrepl.
  assert (Hout : out = firstn (Z.to_nat a) text ++ repl ++ skipn (Z.to_nat b) text
                 /\ len out <= max_int).
  { apply Replace_success in Hrun as (Ho & _ & _ & Hlen). cbn [fst snd] in Ho.
    rewrite !to_uint_small in Ho by (unfold max_int in *; lia). auto. }
  destruct Hout as [-> Hlen].
  assert (Hsub : sub (firstn (Z.to_nat a) text ++ repl ++ skipn (Z.to_nat b) text)
                   a (a + len repl) = repl).
  { unfold sub.
    rewrite skipn_Z_app_r by (rewrite len_firstn by lia; lia).
    rewrite len_firstn by lia.
    replace (a - Z.min a (len text)) with 0 by lia. cbn [Z.to_nat skipn].
    replace (a + len repl - a) with (len repl) by lia.
    rewrite firstn_Z_app_l by lia.
    apply firstn_all2. unfold len. lia. }
  rewrite ExtractString_ascii_sub; rewrite ?Hsub; auto.
  - lia.
  - rewrite len_splice by lia. lia.
Qed.

Lemma Replace_then_Extract_witness :
  ExtractString (str "This was a sentence.") (5, 5 + len (str "was"))
  = (str "was", None).
Proof.
  apply (Replace_then_Extract (str "This is a sentence.") (str "was") 5 7
           (str "This was a sentence.")).
  - unfold max_int; cbn; lia.
  - lia.
  - cbn; lia.
  - repeat constructor.
  - reflexivity.
Defined.

(** ** The results of Extract *)

Section Extract_results.
Context {R : Type} `{ReadSeeker R}.

Lemma Extract_loop_error_empty n : forall r rangeLen l (br : bufio.Reader R) runes e,
  snd (Extract_loop n r rangeLen l br runes) = Some e ->
  fst (Extract_loop n r rangeLen l br runes) = str "".
Proof.
  induction n as [|n IH]; intros r rangeLen l br runes e; cbn [Extract_loop].
  - discriminate.
  - destruct (bufio.ReadRune br) as [br' [[run size] [err|]]].
    + now destruct (errors_Is_EOF err).
    + apply IH.
Qed.

(** X5 (no text beside an error):
    whatever the source, [Extract] returns no text together with an error:
    when it fails the string it returns is empty, also when the source
    fails after some runes have been read. *)
Theorem Extract_error_empty (input : R) (r : Range) (e : error) :
  snd (Extract input r) = Some e -> fst (Extract input r) = str "".
Proof.
  unfold Extract.
  destruct (Len r =? 0); [discriminate |].
  destruct (Len r <? 0); [reflexivity |].
  destruct (Seek input (to_int (fst r)) SeekStart) as [[input1 pos1] [e1|]];
    [reflexivity |].
  destruct (Read input1 1) as [[input2 bs] [e2|]]; [reflexivity |].
  destruct (Seek input2 (-1) SeekCurrent) as [[input3 pos3] e3].
  apply Extract_loop_error_empty.
Qed.

End Extract_results.

Lemma Extract_error_empty_witness :
  snd (Extract (strings.NewReader (str "This is a sentence.")) (5, 30))
  = Some (RangeError (5, 30) "range end (pos 30) after input end (pos 19)")
  /\ fst (Extract (strings.NewReader (str "This is a sentence.")) (5, 30)) = str "".
Proof.
  split; [reflexivity |].
  apply (Extract_error_empty (strings.NewReader (str "This is a sentence.")) (5, 30)
           (RangeError (5, 30) "range end (pos 30) after input end (pos 19)")).
  reflexivity.
Defined.

(** X6 (when extraction succeeds):
    [ExtractString] succeeds exactly when the range is empty or starts
    within the text, at an offset that fits an int64, with at least [Len r]
    runes from there on; it then returns these runes. *)
Theorem ExtractString_success_iff text r :
  (snd (ExtractString text r) = None <->
   Len r = 0
   \/ (0 < Len r /\ 0 <= to_int (fst r) < len text
       /\ Len r <= len (runes (skipn (Z.to_nat (to_int (fst r))) text))))
  /\ (snd (ExtractString text r) = None ->
      fst (ExtractString text r)
      = string_of_runes
          (firstn (Z.to_nat (Len r))
             (runes (skipn (Z.to_nat (to_int (fst r))) text)))).
Proof.
  rewrite ExtractString_eq, decode_n_runes.
  destruct (Len r =? 0) eqn:E0.
  { apply Z.eqb_eq in E0. rewrite E0. split; [tauto | reflexivity]. }
  apply Z.eqb_neq in E0.
  destruct (Len r <? 0) eqn:E1.
  { apply Z.ltb_lt in E1. split; [| discriminate].
    split; [discriminate | lia]. }
  apply Z.ltb_ge in E1.
  destruct (to_int (fst r) <? 0) eqn:E2.
  { apply Z.ltb_lt in E2. split; [| discriminate].
    split; [discriminate | lia]. }
  apply Z.ltb_ge in E2.
  destruct (to_int (fst r) >=? len text) eqn:E3; rewrite Z.geb_leb in E3.
  { apply Z.leb_le in E3. split; [| discriminate].
    split; [discriminate | lia]. }
  apply Z.leb_gt in E3.
  destruct (_ <=? _)%nat eqn:E4.
  - apply Nat.leb_le in E4. split; [| reflexivity].
    split; [intros _; right; unfold len in *; lia | reflexivity].
  - apply Nat.leb_gt in E4. split; [| discriminate].
    split; [discriminate | unfold len in *; lia].
Qed.

(** ** The errors of ReplaceMany *)

Lemma ReplaceMany_loop_error input rs : forall output offsets out e,
  ReplaceMany_loop input rs output offsets = Value (out, Some e) ->
  out = str ""
  /\ exists repl err,
       In repl rs
       /\ snd (ExtractString input (Range_ repl)) = Some err
       /\ e = fmt_Errorf "extract text: " err.
Proof.
  induction rs as [|repl rs IH]; intros output offsets out e Hrun;
    [discriminate |].
  cbn [ReplaceMany_loop] in Hrun.
  destruct (slice_to _ _); [| discriminate]. cbn [bind] in Hrun.
  destruct (slice_from _ _); [| discriminate]. cbn [bind] in Hrun.
  destruct (concat3 _ _ _); [| discriminate]. cbn [bind] in Hrun.
  destruct (ExtractString input (Range_ repl)) as [orgText [err|]] eqn:Hx.
  - injection Hrun as <- <-. split; [reflexivity |].
    exists repl, err. rewrite Hx. repeat split. now left.
  - apply IH in Hrun as (-> & repl' & err & Hin & Herr & ->).
    split; [reflexivity |]. exists repl', err. repeat split; auto. now right.
Qed.

(** X7 (errors of ReplaceMany):
    an error returned by [ReplaceMany] is the error of the extraction of
    the original text of one of the replacements, wrapped with the prefix
    "extract text: ", and it comes with an empty string: no partial output
    is returned. *)
Theorem ReplaceMany_error input rs out e :
  ReplaceMany input rs = Value (out, Some e) ->
  out = str ""
  /\ exists repl err,
       In repl rs
       /\ snd (ExtractString input (Range_ repl)) = Some err
       /\ e = fmt_Errorf "extract text: " err.
Proof. apply ReplaceMany_loop_error. Qed.

Lemma ReplaceMany_error_witness :
  str "" = str ""
  /\ exists repl err,
       In repl [mkReplacement (0, 4) (str "Hi,"); mkReplacement (7, 5) (str "I am")]
       /\ snd (ExtractString (str "This is a sentence.") (Range_ repl)) = Some err
       /\ fmt_Errorf "extract text: " (RangeError (7, 5) msg_negative)
          = fmt_Errorf "extract text: " err.
Proof.
  apply (ReplaceMany_error (str "This is a sentence.")
           [mkReplacement (0, 4) (str "Hi,"); mkReplacement (7, 5) (str "I am")]).
  reflexivity.
Defined.

(** ** ReplaceMany with replacements in ascending order *)

Lemma applied_offset_app offsets o r :
  applied_offset (offsets ++ [o]) r =
  if start o <=? to_uint (fst r)
  then to_int (applied_offset offsets r + offset_ o)
  else applied_offset offsets r.
Proof. unfold applied_offset. now rewrite fold_left_app. Qed.

Lemma ReplaceMany_loop_ascending doc : forall rs output offsets done from thr D,
  ascii_only doc -> len doc <= max_int ->
  0 <= from <= len doc ->
  output = done ++ skipn (Z.to_nat from) doc -> len done = from + D ->
  (forall a b, Z.max from thr <= a <= max_int -> applied_offset offsets (a, b) = D) ->
  ascending (len doc) from thr D rs ->
  len output + sum_Z (map (fun r => len (Text r)) rs) <= max_int ->
  ReplaceMany_loop doc rs output offsets = Value (done ++ reassemble doc from rs, None).
Proof.
  induction rs as [|r rs IH];
    intros output offsets done from thr D Hascii Hdoc Hfrom Hout Hdone Hoff Hasc Hsize.
  { cbn. now rewrite Hout. }
  destruct r as [[a b] t]. cbn [ascending Range_ Text fst snd map] in *.
  rewrite sum_Z_cons in Hsize.
  destruct Hasc as (Hfa & Hta & [Hab Hb] & Hasc).
  pose proof (len_nonneg t) as Ht. pose proof (len_nonneg done) as Hd.
  assert (Hsum : 0 <= sum_Z (map (fun r => len (Text r)) rs)).
  { clear. induction rs as [|r rs IH]; cbn [map]; [cbn; lia |].
    rewrite sum_Z_cons. pose proof (len_nonneg (Text r)). lia. }
  assert (Hlen : len output = len doc + D).
  { rewrite Hout, len_app, len_skipn by lia. lia. }
  rewrite (ReplaceMany_loop_step doc _ rs output offsets a b D);
    try reflexivity; auto; cbn [Text]; try lia.
  2:{ apply Hoff. lia. }
  set (d := len t - (b - a)).
  cbn [reassemble Range_ Text fst snd].
  replace (done ++ sub doc from a ++ t ++ reassemble doc b rs)
    with ((done ++ sub doc from a ++ t) ++ reassemble doc b rs)
    by (now rewrite <- !app_assoc).
  apply IH with (thr := b + D) (D := D + d); auto; try lia.
  - rewrite Hout.
    rewrite firstn_Z_app_r by lia. rewrite skipn_Z_app_r by lia.
    rewrite Hdone. rewrite <- !app_assoc. do 2 f_equal.
    + unfold sub. do 2 f_equal. lia.
    + f_equal. rewrite <- skipn_add by lia. f_equal. lia.
  - rewrite !len_app, len_sub by lia. unfold d. lia.
  - intros a' b' Ha'.
    destruct (d =? 0) eqn:E.
    + apply Z.eqb_eq in E. rewrite E, Z.add_0_r. apply Hoff. lia.
    + rewrite applied_offset_app. cbn [start offset_ fst].
      rewrite Hoff by lia.
      rewrite to_uint_small by (unfold is_uint, max_int in *; lia).
      destruct (b + D <=? a') eqn:E2; [| apply Z.leb_gt in E2; lia].
      apply to_int_small. unfold d, max_int in *. lia.
  - rewrite !len_app, len_firstn, len_skipn by lia. unfold d in *. lia.
Qed.

(** X8 (replacements in ascending order):
    for a document of single-byte characters and replacements in ascending
    order, each range within the document and starting at or after the end
    of the one before, also after that end has been shifted by the drift of
    the replacements before it, [ReplaceMany] returns the document with
    every span replaced by its text. *)
Theorem ReplaceMany_ascending doc rs :
  ascii_only doc ->
  ascending (len doc) 0 0 0 rs ->
  len doc + sum_Z (map (fun r => len (Text r)) rs) <= max_int ->
  ReplaceMany doc rs = Value (reassemble doc 0 rs, None).
Proof.
  intros Hascii Hasc Hsize. unfold ReplaceMany.
  assert (Hsum : 0 <= sum_Z (map (fun r => len (Text r)) rs)).
  { clear. induction rs as [|r rs IH]; cbn [map]; [cbn; lia |].
    rewrite sum_Z_cons. pose proof (len_nonneg (Text r)). lia. }
  pose proof (len_nonneg doc) as Hd.
  apply (ReplaceMany_loop_ascending doc rs doc [] [] 0 0 0); auto; lia.
Qed.

Lemma ReplaceMany_ascending_witness :
  ReplaceMany (str "one two three four")
    [mkReplacement (0, 3) (str "1"); mkReplacement (4, 7) (str "2");
     mkReplacement (8, 13) (str "drei"); mkReplacement (14, 18) (str "4")]
  = Value (str "1 2 drei 4", None).
Proof.
  apply (ReplaceMany_ascending (str "one two three four")
           [mkReplacement (0, 3) (str "1"); mkReplacement (4, 7) (str "2");
            mkReplacement (8, 13) (str "drei"); mkReplacement (14, 18) (str "4")]).
  - repeat constructor.
  - cbn. lia.
  - unfold max_int. cbn. lia.
Defined.

(** ** ReplaceMany: thresholds in shifted coordinates *)

(** X9 (a third replacement spliced at a shifted place):
    the threshold recorded for a replacement is the end of its range in
    the working string, but it is compared with the start of later ranges
    in the original document.  With three replacements in ascending order
    in a document of single-byte characters, when the first one makes the
    text so much longer that the shifted end of the second lies past the
    start of the third, the drift of the second is not applied to the
    third: its text is spliced at [[a3 + d1, b3 + d1)] of the working string,
    not at [[a3 + d1 + d2, b3 + d1 + d2)]. *)
Theorem ReplaceMany_third_misplaced doc r1 r2 r3 :
  ascii_only doc ->
  0 <= fst (Range_ r1) <= snd (Range_ r1) ->
  snd (Range_ r1) <= fst (Range_ r2) <= snd (Range_ r2) ->
  snd (Range_ r2) <= fst (Range_ r3) <= snd (Range_ r3) ->
  snd (Range_ r3) <= len doc ->
  fst (Range_ r3) < snd (Range_ r2) + drift r1 ->
  snd (Range_ r3) <= len doc + drift r2 ->
  len doc + len (Text r1) + len (Text r2) + len (Text r3) <= max_int ->
  ReplaceMany doc [r1; r2; r3]
  = Value (firstn (Z.to_nat (fst (Range_ r3) + drift r1)) (reassemble doc 0 [r1; r2])
           ++ Text r3
           ++ skipn (Z.to_nat (snd (Range_ r3) + drift r1)) (reassemble doc 0 [r1; r2]),
           None).
Proof.
  destruct r1 as [[a1 b1] t1], r2 as [[a2 b2] t2], r3 as [[a3 b3] t3].
  unfold drift. cbn [Range_ Text fst snd reassemble].
  intros Hascii H1 H2 H3 Hb Hthr Hfit Hsize.
  pose proof (len_nonneg t1) as Ht1. pose proof (len_nonneg t2) as Ht2.
  pose proof (len_nonneg t3) as Ht3. pose proof (len_nonneg doc) as Hd.
  set (d1 := len t1 - (b1 - a1)) in *. set (d2 := len t2 - (b2 - a2)) in *.
  unfold ReplaceMany.
  (* first replacement *)
  rewrite (ReplaceMany_loop_step doc _ _ doc [] a1 b1 0) by
    (try reflexivity; auto; cbn [Text]; lia).
  cbn [Text]. fold d1. rewrite !Z.add_0_r.
  destruct (d1 =? 0) eqn:E1; [apply Z.eqb_eq in E1; lia |]. cbn [app].
  set (out1 := firstn (Z.to_nat a1) doc ++ t1 ++ skipn (Z.to_nat b1) doc).
  assert (Hout1 : len out1 = len doc + d1).
  { unfold out1, d1. rewrite !len_app, len_firstn, len_skipn by lia. lia. }
  assert (Hd1 : to_int d1 = d1) by (apply to_int_small; unfold d1, max_int in *; lia).
  (* second replacement *)
  assert (Hoff2 : applied_offset [mkOffset b1 d1] (a2, b2) = d1).
  { rewrite applied_offset_one. cbn [fst].
    rewrite to_uint_small by (unfold is_uint, max_int in *; lia).
    destruct (b1 <=? a2) eqn:E; [exact Hd1 | apply Z.leb_gt in E; lia]. }
  rewrite (ReplaceMany_loop_step doc _ _ out1 [mkOffset b1 d1] a2 b2 d1) by
    (try reflexivity; auto; cbn [Text]; unfold d1 in *; lia).
  cbn [Text]. fold d2.
  set (out2 := firstn (Z.to_nat (a2 + d1)) out1 ++ t2
               ++ skipn (Z.to_nat (b2 + d1)) out1).
  assert (Hout2 : out2 = sub doc 0 a1 ++ t1 ++ sub doc b1 a2 ++ t2
                         ++ skipn (Z.to_nat b2) doc).
  { unfold out2, out1, sub. cbn [Z.to_nat skipn].
    replace (Z.to_nat (a1 - 0)) with (Z.to_nat a1) by lia.
    rewrite firstn_Z_app_r by (rewrite len_firstn by lia; lia).
    rewrite firstn_Z_app_r by (rewrite len_firstn by lia; unfold d1; lia).
    rewrite skipn_Z_app_r by (rewrite len_firstn by lia; unfold d1; lia).
    rewrite skipn_Z_app_r by (rewrite len_firstn by lia; unfold d1; lia).
    rewrite len_firstn by lia.
    rewrite <- skipn_add by (unfold d1; lia).
    rewrite <- !app_assoc.
    replace (a2 + d1 - Z.min a1 (len doc) - len t1) with (a2 - b1)
      by (unfold d1; lia).
    replace (b1 + (b2 + d1 - Z.min a1 (len doc) - len t1)) with b2
      by (unfold d1; lia).
    reflexivity. }
  assert (Hlen2 : len out2 = len doc + d1 + d2).
  { rewrite Hout2. unfold d1, d2.
    rewrite !len_app, !len_sub, len_skipn by lia. lia. }
  (* third replacement: the offset of the second is left out *)
  set (offs := if d2 =? 0 then [mkOffset b1 d1]
               else [mkOffset b1 d1] ++ [mkOffset (b2 + d1) d2]).
  assert (Hone : applied_offset [mkOffset b1 d1] (a3, b3) = d1).
  { rewrite applied_offset_one. cbn [fst].
    rewrite to_uint_small by (unfold is_uint, max_int in *; lia).
    destruct (b1 <=? a3) eqn:E; [exact Hd1 | apply Z.leb_gt in E; lia]. }
  assert (Hoff3 : applied_offset offs (a3, b3) = d1).
  { unfold offs. destruct (d2 =? 0); [exact Hone |].
    rewrite applied_offset_app, Hone. cbn [start fst].
    rewrite to_uint_small by (unfold is_uint, max_int in *; lia).
    destruct (b2 + d1 <=? a3) eqn:E; [apply Z.leb_le in E; lia | reflexivity]. }
  rewrite (ReplaceMany_loop_step doc _ _ out2 offs a3 b3 d1) by
    (try reflexivity; auto; cbn [Text]; unfold d1, d2 in *; lia).
  cbn [ReplaceMany_loop Text]. now rewrite Hout2.
Qed.

(** The third replacement is spliced over the last letter of "two" and
    leaves "c" in place, where "one two three" was meant. *)
Lemma ReplaceMany_third_misplaced_witness :
  ReplaceMany (str "a b c")
    [mkReplacement (0, 1) (str "one"); mkReplacement (2, 3) (str "two");
     mkReplacement (4, 5) (str "three")]
  = Value (str "one twthree c", None).
Proof.
  apply (ReplaceMany_third_misplaced (str "a b c")
           (mkReplacement (0, 1) (str "one")) (mkReplacement (2, 3) (str "two"))
           (mkReplacement (4, 5) (str "three"))).
  - repeat constructor.
  - cbn; lia.
  - cbn; lia.
  - cbn; lia.
  - cbn; lia.
  - cbn; lia.
  - cbn; lia.
  - unfold max_int; cbn; lia.
Defined.

(** ** ReplaceMany with replacements in descending order *)

Lemma applied_offset_none offsets a b :
  Forall (fun o => to_uint a < start o) offsets -> applied_offset offsets (a, b) = 0.
Proof.
  unfold applied_offset. cbn [fst].
  induction 1 as [|o offsets Ho _ IH]; [reflexivity |].
  cbn [fold_left].
  destruct (start o <=? to_uint a) eqn:E; [apply Z.leb_le in E; lia | exact IH].
Qed.

Lemma sum_Z_len_nonneg (rs : list Replacement) :
  0 <= sum_Z (map (fun r => len (Text r)) rs).
Proof.
  induction rs as [|r rs IH]; cbn [map]; [cbn; lia |].
  rewrite sum_Z_cons. pose proof (len_nonneg (Text r)). lia.
Qed.

Lemma ReplaceMany_loop_descending doc : forall ds output offsets bound thr tail,
  ascii_only doc -> len doc <= max_int ->
  bound <= len doc -> bound <= thr ->
  output = firstn (Z.to_nat bound) doc ++ tail ->
  Forall (fun o => thr <= start o) offsets ->
  descending bound thr ds ->
  len output + sum_Z (map (fun r => len (Text r)) ds) <= max_int ->
  ReplaceMany_loop doc ds output offsets
  = Value (reassemble_desc doc bound tail ds, None).
Proof.
  induction ds as [|r ds IH];
    intros output offsets bound thr tail Hascii Hdoc Hbound Hthr Hout Hoffs Hdesc Hsize.
  { cbn. now rewrite Hout. }
  destruct r as [[a b] t]. cbn [descending Range_ Text fst snd map] in *.
  rewrite sum_Z_cons in Hsize.
  destruct Hdesc as (Hab & Hb & Ha & Hdesc).
  pose proof (len_nonneg t) as Ht. pose proof (len_nonneg tail) as Htl.
  pose proof (sum_Z_len_nonneg ds) as Hsum.
  assert (Hlen : len output = bound + len tail).
  { rewrite Hout, len_app, len_firstn by lia. lia. }
  assert (Hoff : applied_offset offsets (a, b) = 0).
  { apply applied_offset_none.
    rewrite to_uint_small by (unfold is_uint, max_int in *; lia).
    eapply Forall_impl; [| exact Hoffs]. cbn. intros o Ho. lia. }
  rewrite (ReplaceMany_loop_step doc _ ds output offsets a b 0);
    try reflexivity; auto; cbn [Text]; try lia.
  rewrite !Z.add_0_r. cbn [reassemble_desc Range_ Text fst snd].
  apply IH with (thr := b); auto; try lia.
  - rewrite Hout.
    rewrite firstn_Z_app_l by (rewrite len_firstn by lia; lia).
    rewrite firstn_Z_firstn by lia.
    rewrite skipn_Z_app_l by (rewrite len_firstn by lia; lia).
    rewrite skipn_Z_firstn by lia.
    unfold sub. rewrite <- ?app_assoc. reflexivity.
  - destruct (len t - (b - a) =? 0).
    + eapply Forall_impl; [| exact Hoffs]. cbn. intros o Ho. lia.
    + apply Forall_app. split.
      * eapply Forall_impl; [| exact Hoffs]. cbn. intros o Ho. lia.
      * repeat constructor. cbn. lia.
  - rewrite !len_app, len_firstn, len_skipn by lia. lia.
Qed.

Lemma sub_split (doc : gostring) x y z :
  0 <= x <= y -> y <= z -> sub doc x z = sub doc x y ++ sub doc y z.
Proof.
  intros Hx Hy. unfold sub.
  set (l := skipn (Z.to_nat x) doc).
  replace (skipn (Z.to_nat y) doc) with (skipn (Z.to_nat (y - x)) l)
    by (unfold l; rewrite skipn_skipn; f_equal; lia).
  rewrite <- (firstn_skipn (Z.to_nat (y - x)) (firstn (Z.to_nat (z - x)) l)).
  rewrite firstn_firstn, skipn_firstn_comm.
  f_equal; f_equal; lia.
Qed.

(** Moving the point from which the document is copied. *)
Lemma reassemble_from doc rs from from' :
  0 <= from' <= from ->
  match rs with
  | [] => True
  | r :: _ => from <= fst (Range_ r)
  end ->
  reassemble doc from' rs = sub doc from' from ++ reassemble doc from rs.
Proof.
  intros Hf Hrs. destruct rs as [|r rs]; cbn [reassemble].
  - unfold sub.
    rewrite <- (firstn_skipn (Z.to_nat (from - from')) (skipn (Z.to_nat from') doc))
      at 1.
    f_equal. rewrite skipn_skipn. f_equal. lia.
  - rewrite (sub_split doc from' from (fst (Range_ r))) by lia.
    now rewrite <- app_assoc.
Qed.

Lemma reassemble_desc_rev doc : forall ds bound thr rest,
  descending bound thr ds -> 0 <= bound ->
  match rest with
  | [] => True
  | r :: _ => bound <= fst (Range_ r)
  end ->
  reassemble_desc doc bound (reassemble doc bound rest) ds
  = reassemble doc 0 (rev ds ++ rest).
Proof.
  induction ds as [|r ds IH]; intros bound thr rest Hdesc Hbound Hrest.
  - cbn [reassemble_desc rev app].
    rewrite (reassemble_from doc rest bound 0) by (auto; lia).
    unfold sub. cbn [Z.to_nat skipn].
    now replace (Z.to_nat (bound - 0)) with (Z.to_nat bound) by lia.
  - cbn [descending] in Hdesc. destruct Hdesc as (Hab & Hb & Ha & Hdesc).
    cbn [reassemble_desc rev]. rewrite <- app_assoc. cbn [app].
    rewrite <- (IH (fst (Range_ r)) (snd (Range_ r)) (r :: rest)) by (auto; lia).
    f_equal. cbn [reassemble].
    replace (sub doc (fst (Range_ r)) (fst (Range_ r))) with (@nil byte)
      by (unfold sub; now rewrite Z.sub_diag).
    cbn [app]. f_equal.
    symmetry. apply reassemble_from; [lia | exact Hrest].
Qed.

(** X10 (replacements in descending order):
    for a document of single-byte characters and replacements given from
    the last to the first, each range within the document, ending at or
    before the start of the one given before it and starting before the end
    of that one, [ReplaceMany] returns the document with every span replaced
    by its text, whatever the lengths of the texts. *)
Theorem ReplaceMany_descending doc ds :
  ascii_only doc ->
  descending (len doc) (len doc + 1) ds ->
  len doc + sum_Z (map (fun r => len (Text r)) ds) <= max_int ->
  ReplaceMany doc ds = Value (reassemble doc 0 (rev ds), None).
Proof.
  intros Hascii Hdesc Hsize. unfold ReplaceMany.
  pose proof (sum_Z_len_nonneg ds) as Hsum. pose proof (len_nonneg doc) as Hd.
  rewrite (ReplaceMany_loop_descending doc ds doc [] (len doc) (len doc + 1) []);
    auto; try lia.
  - do 2 f_equal.
    rewrite <- (app_nil_r (rev ds)).
    rewrite <- (reassemble_desc_rev doc ds (len doc) (len doc + 1) []); auto.
    cbn [reassemble]. f_equal. symmetry. apply skipn_all_len. lia.
  - rewrite app_nil_r. symmetry. apply firstn_all2. unfold len. lia.
Qed.

Lemma ReplaceMany_descending_witness :
  ReplaceMany (str "a b c")
    [mkReplacement (4, 5) (str "three"); mkReplacement (2, 3) (str "two");
     mkReplacement (0, 1) (str "one")]
  = Value (str "one two three", None).
Proof.
  apply (ReplaceMany_descending (str "a b c")
           [mkReplacement (4, 5) (str "three"); mkReplacement (2, 3) (str "two");
            mkReplacement (0, 1) (str "one")]).
  - repeat constructor.
  - cbn. lia.
  - unfold max_int. cbn. lia.
Defined.

(** ** The position reported for a truncated range *)

Lemma runes_ascii s : ascii_only s -> runes s = map b2z s.
Proof.
  intros Ha. rewrite <- (app_nil_r s) at 1.
  rewrite runes_ascii_app by assumption. cbn. apply app_nil_r.
Qed.

(** X11 (position reported for a truncated range):
    in a text of single-byte characters, a range that starts within the
    text and ends past its end is refused with "range end after input end",
    and the position reported is the length of the text. *)
Theorem ExtractString_truncated_position text r :
  ascii_only text ->
  0 <= fst r < len text -> len text < snd r -> snd r <= max_int ->
  ExtractString text r
  = (str "", Some (RangeError r (msg_end r (len text)))).
Proof.
  intros Hascii Hs He Hu.
  assert (HL : Len r = snd r - fst r) by (unfold max_int in *; wrap_lia).
  assert (H0 : to_int (fst r) = fst r) by (unfold max_int in *; wrap_lia).
  rewrite ExtractString_eq, H0, HL.
  destruct (snd r - fst r =? 0) eqn:E0; [apply Z.eqb_eq in E0; lia |].
  destruct (snd r - fst r <? 0) eqn:E1; [apply Z.ltb_lt in E1; lia |].
  destruct (fst r <? 0) eqn:E2; [apply Z.ltb_lt in E2; lia |].
  destruct (fst r >=? len text) eqn:E3.
  { rewrite Z.geb_leb in E3. apply Z.leb_le in E3. lia. }
  set (rest := skipn (Z.to_nat (fst r)) text).
  assert (Hrest : len rest = len text - fst r).
  { unfold rest. rewrite len_skipn by lia. lia. }
  rewrite decode_n_runes, runes_ascii by now apply ascii_only_skipn.
  rewrite length_map.
  destruct (_ <=? _)%nat eqn:E4.
  { apply Nat.leb_le in E4. unfold len in *. lia. }
  do 4 f_equal.
  replace (len (map b2z rest)) with (len rest)
    by (unfold len; now rewrite length_map).
  rewrite Hrest. unfold max_int in *. wrap_lia.
Qed.

Lemma ExtractString_truncated_position_witness :
  ExtractString (str "This is a sentence.") (5, 30)
  = (str "", Some (RangeError (5, 30) (msg_end (5, 30) (len (str "This is a sentence."))))).
Proof.
  apply (ExtractString_truncated_position (str "This is a sentence.") (5, 30)).
  - repeat constructor.
  - cbn; lia.
  - cbn; lia.
  - unfold max_int; cbn; lia.
Defined.

(** ** Encoding and decoding of runes *)

Module utf8_encode.
Import utf8.

Lemma land_shifted_low a k b : 0 <= k -> 0 <= b < 2 ^ k -> Z.land (a * 2 ^ k) b = 0.
Proof.
  intros Hk Hb. apply Z.bits_inj'. intros n Hn.
  rewrite Z.land_spec, Z.bits_0.
  destruct (Z.lt_ge_cases n k) as [Hlt | Hge].
  - rewrite Z.mul_pow2_bits_low by lia. reflexivity.
  - destruct (Z.eq_dec b 0) as [-> | Hnz].
    + rewrite Z.bits_0. apply andb_false_r.
    + rewrite (Z.bits_above_log2 b n); [apply andb_false_r | lia |].
      assert (Z.log2 b < k) by (apply Z.log2_lt_pow2; lia). lia.
Qed.

Lemma lor_shifted a k b : 0 <= k -> 0 <= b < 2 ^ k -> Z.lor (a * 2 ^ k) b = a * 2 ^ k + b.
Proof.
  intros Hk Hb. pose proof (Z.add_lor_land (a * 2 ^ k) b) as H.
  rewrite land_shifted_low in H by assumption. lia.
Qed.

Lemma lor2 A B : 0 <= B < 64 -> Z.lor (Z.shiftl A 6) B = A * 64 + B.
Proof.
  intros HB. rewrite Z.shiftl_mul_pow2 by lia.
  rewrite lor_shifted by lia. reflexivity.
Qed.

Lemma lor3 A B C :
  0 <= B < 64 -> 0 <= C < 64 ->
  Z.lor (Z.lor (Z.shiftl A 12) (Z.shiftl B 6)) C = A * 4096 + B * 64 + C.
Proof.
  intros HB HC. rewrite !Z.shiftl_mul_pow2 by lia.
  rewrite (lor_shifted A 12) by lia.
  replace (A * 2 ^ 12 + B * 2 ^ 6) with ((A * 64 + B) * 2 ^ 6) by lia.
  rewrite lor_shifted by lia. lia.
Qed.

Lemma lor4 A B C D :
  0 <= B < 64 -> 0 <= C < 64 -> 0 <= D < 64 ->
  Z.lor (Z.lor (Z.lor (Z.shiftl A 18) (Z.shiftl B 12)) (Z.shiftl C 6)) D
  = A * 262144 + B * 4096 + C * 64 + D.
Proof.
  intros HB HC HD. rewrite !Z.shiftl_mul_pow2 by lia.
  rewrite (lor_shifted A 18) by lia.
  replace (A * 2 ^ 18 + B * 2 ^ 12) with ((A * 64 + B) * 2 ^ 12) by lia.
  rewrite lor_shifted by lia.
  replace ((A * 64 + B) * 2 ^ 12 + C * 2 ^ 6) with (((A * 64 + B) * 64 + C) * 2 ^ 6) by lia.
  rewrite lor_shifted by lia. lia.
Qed.

Lemma lor_const c k h : 0 <= k -> 0 <= h < 2 ^ k -> Z.lor (c * 2 ^ k) h = c * 2 ^ k + h.
Proof. apply lor_shifted. Qed.

Lemma land_mask a k : 0 <= k -> Z.land a (Z.ones k) = a mod 2 ^ k.
Proof. apply Z.land_ones. Qed.

Lemma first_inv b :
  0 <= b < 256 ->
  (first b = as_ /\ b < 0x80) \/ first b = xx
  \/ (first b = s1 /\ 0xC2 <= b < 0xE0)
  \/ (first b = s2 /\ b = 0xE0)
  \/ (first b = s3 /\ (0xE1 <= b < 0xED \/ 0xEE <= b < 0xF0))
  \/ (first b = s4 /\ b = 0xED)
  \/ (first b = s5 /\ b = 0xF0)
  \/ (first b = s6 /\ 0xF1 <= b < 0xF4)
  \/ (first b = s7 /\ b = 0xF4).
Proof.
  intros Hb. unfold first.
  repeat match goal with
         | |- context [if ?c then _ else _] => destruct c eqn:?
         end; bool_to_Z; try tauto; try (right; tauto).
  all: try (right; right; left; split; [reflexivity | lia]).
  all: try (right; right; right; left; split; [reflexivity | lia]).
  all: try (right; right; right; right; left; split; [reflexivity | lia]).
  all: try (right; right; right; right; right; left; split; [reflexivity | lia]).
  all: try (right; right; right; right; right; right; left; split; [reflexivity | lia]).
  all: try (right; right; right; right; right; right; right; left; split; [reflexivity | lia]).
  all: try (right; right; right; right; right; right; right; right; split; [reflexivity | lia]).
  all: try (left; split; [reflexivity | lia]).
Qed.

Lemma DecodeRune_cases p :
  p <> [] ->
  DecodeRune p = (RuneError, 1)
  \/ (at_ p 0 < 0x80 /\ DecodeRune p = (at_ p 0, 1))
  \/ (2 <= len p /\ 0xC2 <= at_ p 0 < 0xE0 /\ cont (at_ p 1)
      /\ DecodeRune p
         = (Z.lor (Z.shiftl (Z.land (at_ p 0) mask2) 6) (Z.land (at_ p 1) maskx), 2))
  \/ (3 <= len p /\ lead3 (at_ p 0) (at_ p 1) /\ cont (at_ p 2)
      /\ DecodeRune p
         = (Z.lor (Z.lor (Z.shiftl (Z.land (at_ p 0) mask3) 12)
                         (Z.shiftl (Z.land (at_ p 1) maskx) 6))
                  (Z.land (at_ p 2) maskx), 3))
  \/ (4 <= len p /\ lead4 (at_ p 0) (at_ p 1) /\ cont (at_ p 2) /\ cont (at_ p 3)
      /\ DecodeRune p
         = (Z.lor (Z.lor (Z.lor (Z.shiftl (Z.land (at_ p 0) mask4) 18)
                                (Z.shiftl (Z.land (at_ p 1) maskx) 12))
                         (Z.shiftl (Z.land (at_ p 2) maskx) 6))
                  (Z.land (at_ p 3) maskx), 4)).
Proof.
  intros Hp. destruct p as [|c p]; [congruence |].
  pose proof (DecodeRune_ascii c p) as Hascii.
  unfold DecodeRune, lead3, lead4, cont in *. rewrite len_cons in *.
  pose proof (len_nonneg p) as Hn.
  set (p0 := at_ (c :: p) 0) in *. set (b1 := at_ (c :: p) 1) in *.
  set (b2 := at_ (c :: p) 2) in *. set (b3 := at_ (c :: p) 3) in *.
  assert (Hp0 : 0 <= p0 < 256) by apply b2z_range.
  change (b2z c) with p0 in Hascii. unfold RuneSelf in Hascii.
  destruct (1 + len p <? 1) eqn:E0; [apply Z.ltb_lt in E0; lia |].
  clearbody p0 b1 b2 b3.
  destruct (first_inv p0 Hp0)
    as [[E H]|[E|[[E H]|[[E H]|[[E H]|[[E H]|[[E H]|[[E H]|[E H]]]]]]]]];
    rewrite E in *; clear E.
  - right; left. split; [lia |]. now apply Hascii.
  - left. clear Hascii. cbn. rewrite Z.land_0_r. reflexivity.
  - (* s1: two bytes *)
    clear Hascii. hide_values. cbn -[Z.add len Z.ltb Z.leb].
    split_if; bool_to_Z; unfold locb, hicb in *; try (exfalso; lia);
      try (left; reflexivity).
    right; right; left. repeat split; first [reflexivity | lia].
  - (* s2: E0 *)
    clear Hascii. hide_values. cbn -[Z.add len Z.ltb Z.leb].
    split_if; bool_to_Z; unfold locb, hicb in *; try (exfalso; lia);
      try (left; reflexivity).
    right; right; right; left.
    repeat split; first [reflexivity | lia].
  - (* s3 *)
    clear Hascii. hide_values. cbn -[Z.add len Z.ltb Z.leb].
    split_if; bool_to_Z; unfold locb, hicb in *; try (exfalso; lia);
      try (left; reflexivity).
    right; right; right; left.
    repeat split; first [reflexivity | lia].
  - (* s4: ED *)
    clear Hascii. hide_values. cbn -[Z.add len Z.ltb Z.leb].
    split_if; bool_to_Z; unfold locb, hicb in *; try (exfalso; lia);
      try (left; reflexivity).
    right; right; right; left.
    repeat split; first [reflexivity | lia].
  - (* s5: F0 *)
    clear Hascii. hide_values. cbn -[Z.add len Z.ltb Z.leb].
    split_if; bool_to_Z; unfold locb, hicb in *; try (exfalso; lia);
      try (left; reflexivity).
    right; right; right; right.
    repeat split; first [reflexivity | lia].
  - (* s6 *)
    clear Hascii. hide_values. cbn -[Z.add len Z.ltb Z.leb].
    split_if; bool_to_Z; unfold locb, hicb in *; try (exfalso; lia);
      try (left; reflexivity).
    right; right; right; right.
    repeat split; first [reflexivity | lia].
  - (* s7: F4 *)
    clear Hascii. hide_values. cbn -[Z.add len Z.ltb Z.leb].
    split_if; bool_to_Z; unfold locb, hicb in *; try (exfalso; lia);
      try (left; reflexivity).
    right; right; right; right.
    repeat split; first [reflexivity | lia].
Qed.

Lemma lor_t2 x : 0 <= x < 64 -> Z.lor t2 x = 192 + x.
Proof. intros. change t2 with (3 * 2 ^ 6). rewrite lor_shifted; lia. Qed.

Lemma lor_tx x : 0 <= x < 64 -> Z.lor tx x = 128 + x.
Proof. intros. change tx with (2 * 2 ^ 6). rewrite lor_shifted; lia. Qed.

Lemma lor_t3 x : 0 <= x < 16 -> Z.lor t3 x = 224 + x.
Proof. intros. change t3 with (14 * 2 ^ 4). rewrite lor_shifted; lia. Qed.

Lemma lor_t4 x : 0 <= x < 16 -> Z.lor t4 x = 240 + x.
Proof. intros. change t4 with (15 * 2 ^ 4). rewrite lor_shifted; lia. Qed.

Lemma land_maskx x : Z.land x maskx = x mod 64.
Proof. change maskx with (Z.ones 6). now rewrite Z.land_ones by lia. Qed.

Lemma EncodeRune_2 r :
  0x80 <= r <= 0x7FF ->
  EncodeRune r = [z2b (192 + r / 64); z2b (128 + r mod 64)].
Proof.
  intros Hr. unfold EncodeRune, rune1Max, rune2Max.
  rewrite Z.mod_small by lia.
  destruct (r <=? 2 ^ 7 - 1) eqn:E1; [apply Z.leb_le in E1; lia |].
  destruct (r <=? 2 ^ 11 - 1) eqn:E2; [| apply Z.leb_gt in E2; lia].
  rewrite Z.shiftr_div_pow2, land_maskx by lia.
  rewrite lor_t2, lor_tx by euclid. reflexivity.
Qed.

Lemma EncodeRune_3 r :
  0x800 <= r <= 0xFFFF -> ~ (0xD800 <= r <= 0xDFFF) ->
  EncodeRune r
  = [z2b (224 + r / 4096); z2b (128 + (r / 64) mod 64); z2b (128 + r mod 64)].
Proof.
  intros Hr Hs.
  unfold EncodeRune, rune1Max, rune2Max, rune3Max, MaxRune, surrogateMin, surrogateMax.
  rewrite Z.mod_small by lia.
  destruct (r <=? 2 ^ 7 - 1) eqn:E1; [apply Z.leb_le in E1; lia |].
  destruct (r <=? 2 ^ 11 - 1) eqn:E2; [apply Z.leb_le in E2; lia |].
  destruct (r >? 1114111) eqn:E3.
  { rewrite Z.gtb_ltb in E3. apply Z.ltb_lt in E3. lia. }
  destruct ((55296 <=? r) && (r <=? 57343)) eqn:E4.
  { apply andb_true_iff in E4 as [E4 E5]. apply Z.leb_le in E4, E5. lia. }
  cbn [orb].
  destruct (r <=? 2 ^ 16 - 1) eqn:E5; [| apply Z.leb_gt in E5; lia].
  rewrite !Z.shiftr_div_pow2, !land_maskx by lia.
  rewrite lor_t3, !lor_tx by euclid. reflexivity.
Qed.

Lemma EncodeRune_4 r :
  0x10000 <= r <= 0x10FFFF ->
  EncodeRune r
  = [z2b (240 + r / 262144); z2b (128 + (r / 4096) mod 64);
     z2b (128 + (r / 64) mod 64); z2b (128 + r mod 64)].
Proof.
  intros Hr.
  unfold EncodeRune, rune1Max, rune2Max, rune3Max, MaxRune, surrogateMin, surrogateMax.
  rewrite Z.mod_small by lia.
  destruct (r <=? 2 ^ 7 - 1) eqn:E1; [apply Z.leb_le in E1; lia |].
  destruct (r <=? 2 ^ 11 - 1) eqn:E2; [apply Z.leb_le in E2; lia |].
  destruct (r >? 1114111) eqn:E3.
  { rewrite Z.gtb_ltb in E3. apply Z.ltb_lt in E3. lia. }
  destruct ((55296 <=? r) && (r <=? 57343)) eqn:E4.
  { apply andb_true_iff in E4 as [E4 E5]. apply Z.leb_le in E4, E5. lia. }
  cbn [orb].
  destruct (r <=? 2 ^ 16 - 1) eqn:E5; [apply Z.leb_le in E5; lia |].
  rewrite !Z.shiftr_div_pow2, !land_maskx by lia.
  rewrite lor_t4, !lor_tx by euclid. reflexivity.
Qed.

Lemma z2b_eq z c : z = b2z c -> z2b z = c.
Proof. intros ->. apply z2b_b2z. Qed.

(** Encoding the rune decoded at the head of [p] gives back the bytes it
    was decoded from, unless these were not a well-formed sequence. *)
Lemma EncodeRune_DecodeRune p r size :
  p <> [] -> DecodeRune p = (r, size) -> (r, size) <> (RuneError, 1) ->
  EncodeRune r = firstn (Z.to_nat size) p.
Proof.
  intros Hp Hdec Hok.
  destruct (DecodeRune_cases p Hp)
    as [H | [[H0 H] | [(Hl & H0 & H1 & H) | [(Hl & H0 & H1 & H) | (Hl & H0 & H1 & H2 & H)]]]];
    rewrite H in Hdec; apply pair_equal_spec in Hdec as [Hr Hs]; subst r size.
  - congruence.
  - destruct p as [|c p]; [congruence |]. unfold at_ in *. cbn [nth] in *.
    rewrite EncodeRune_ascii by assumption. reflexivity.
  - destruct p as [|c0 [|c1 p]]; try (cbn in Hl; lia).
    unfold at_, cont in *. cbn [nth] in *.
    pose proof (b2z_range c0). pose proof (b2z_range c1).
    change mask2 with (Z.ones 5). rewrite Z.land_ones, land_maskx by lia.
    rewrite lor2 by euclid.
    rewrite EncodeRune_2 by euclid.
    change (Z.to_nat 2) with 2%nat. cbn [firstn].
    repeat (first [apply z2b_eq; euclid | f_equal]).
  - destruct p as [|c0 [|c1 [|c2 p]]]; try (cbn in Hl; lia).
    unfold at_, cont, lead3 in *. cbn [nth] in *.
    pose proof (b2z_range c0). pose proof (b2z_range c1). pose proof (b2z_range c2).
    change mask3 with (Z.ones 4). rewrite Z.land_ones, !land_maskx by lia.
    rewrite lor3 by euclid.
    rewrite EncodeRune_3 by euclid.
    change (Z.to_nat 3) with 3%nat. cbn [firstn].
    repeat (first [apply z2b_eq; euclid | f_equal]).
  - destruct p as [|c0 [|c1 [|c2 [|c3 p]]]]; try (cbn in Hl; lia).
    unfold at_, cont, lead4 in *. cbn [nth] in *.
    pose proof (b2z_range c0). pose proof (b2z_range c1).
    pose proof (b2z_range c2). pose proof (b2z_range c3).
    change mask4 with (Z.ones 3). rewrite Z.land_ones, !land_maskx by lia.
    rewrite lor4 by euclid.
    rewrite EncodeRune_4 by euclid.
    change (Z.to_nat 4) with 4%nat. cbn [firstn].
    repeat (first [apply z2b_eq; euclid | f_equal]).
Qed.

Lemma valid_fuel_enough f1 : forall f2 p,
  (List.length p <= f1)%nat -> (List.length p <= f2)%nat ->
  valid_fuel f1 p = valid_fuel f2 p.
Proof.
  induction f1 as [|f1 IH]; intros f2 p H1 H2.
  - destruct p; [| cbn in H1; lia]. now destruct f2.
  - destruct p as [|c p]; [now destruct f2 |].
    destruct f2 as [|f2]; [cbn in H2; lia |].
    cbn [valid_fuel].
    pose proof (DecodeRune_size (c :: p) ltac:(discriminate)) as Hsz.
    destruct (DecodeRune (c :: p)) as [r size]. cbn [snd] in Hsz.
    pose proof (skipn_size_length (c :: p) size ltac:(lia) ltac:(discriminate)).
    cbn [List.length] in *.
    destruct ((r =? RuneError) && (size =? 1)); [reflexivity |].
    apply IH; lia.
Qed.

Lemma valid_utf8_cons c p :
  valid_utf8 (c :: p) = true ->
  DecodeRune (c :: p) <> (RuneError, 1)
  /\ valid_utf8 (skipn (Z.to_nat (snd (DecodeRune (c :: p)))) (c :: p)) = true.
Proof.
  unfold valid_utf8 at 1. cbn [List.length valid_fuel].
  pose proof (DecodeRune_size (c :: p) ltac:(discriminate)) as Hsz.
  destruct (DecodeRune (c :: p)) as [r size]. cbn [snd] in *.
  destruct ((r =? RuneError) && (size =? 1)) eqn:E; [discriminate |].
  intros Hv. split.
  - intros [= -> ->]. discriminate.
  - rewrite <- Hv. unfold valid_utf8.
    pose proof (skipn_size_length (c :: p) size ltac:(lia) ltac:(discriminate)).
    cbn [List.length] in *. apply valid_fuel_enough; lia.
Qed.

Lemma FullRune_valid m :
  m <> [] -> DecodeRune m <> (RuneError, 1) -> FullRune m = true.
Proof.
  intros Hm Hok.
  assert (Hlen : 1 <= len m) by (destruct m; [congruence | rewrite len_cons; pose proof (len_nonneg m); lia]).
  pose proof (b2z_range (nth 0 m x00)) as Hb. fold (at_ m 0) in Hb.
  destruct (DecodeRune_cases m Hm)
    as [H | [[H0 H] | [(Hl & H0 & H1 & H) | [(Hl & H0 & H1 & H) | (Hl & H0 & H1 & H2 & H)]]]];
    [congruence | | | |];
    clear H Hok; unfold FullRune, lead3, lead4 in *;
    (destruct (len m =? 0) eqn:E; [apply Z.eqb_eq in E; lia | clear E]);
    destruct (first_inv (at_ m 0) Hb)
      as [[E H]|[E|[[E H]|[[E H]|[[E H]|[[E H]|[[E H]|[[E H]|[E H]]]]]]]]];
    rewrite E; clear E; cbn -[Z.add len Z.geb at_];
    try (exfalso; lia);
    try (destruct (len m >=? _) eqn:E; [reflexivity | rewrite Z.geb_leb in E; apply Z.leb_gt in E; lia]).
  all: exfalso; revert H0; unfold first; split_if; bool_to_Z; cbv; try congruence; lia.
Qed.

Lemma string_of_runes_cons r rs :
  string_of_runes (r :: rs) = EncodeRune r ++ string_of_runes rs.
Proof. reflexivity. Qed.

Lemma strong_list_ind (P : list byte -> Prop) :
  (forall p, (forall q, (List.length q < List.length p)%nat -> P q) -> P p) ->
  forall p, P p.
Proof.
  intros H p.
  assert (Hn : forall n q, (List.length q < n)%nat -> P q).
  { induction n as [|n IH]; intros q Hq; [lia |].
    apply H. intros q' Hq'. apply IH. lia. }
  apply (Hn (S (List.length p))). lia.
Qed.

(** Decoding a well-formed string and encoding its runes gives it back. *)
Lemma string_of_runes_valid p :
  valid_utf8 p = true -> string_of_runes (runes p) = p.
Proof.
  induction p as [p IH] using strong_list_ind. intros Hv.
  destruct p as [|c p]; [reflexivity |].
  apply valid_utf8_cons in Hv as [Hok Hv].
  rewrite runes_cons, string_of_runes_cons.
  pose proof (DecodeRune_size (c :: p) ltac:(discriminate)) as Hsz.
  destruct (DecodeRune (c :: p)) as [r size] eqn:Hdec. cbn [fst snd] in *.
  rewrite (EncodeRune_DecodeRune (c :: p) r size) by (auto; discriminate).
  rewrite IH; [apply firstn_skipn | | exact Hv].
  apply skipn_size_length; [lia | discriminate].
Qed.

(** The runes of a well-formed string are decoded from it whatever
    follows. *)
Lemma decode_n_valid mid : forall post,
  valid_utf8 mid = true ->
  decode_n (List.length (runes mid)) (mid ++ post) = inl (runes mid).
Proof.
  induction mid as [mid IH] using strong_list_ind. intros post Hv.
  destruct mid as [|c mid]; [reflexivity |].
  apply valid_utf8_cons in Hv as [Hok Hv].
  rewrite runes_cons. cbn [List.length decode_n app].
  change (c :: mid ++ post) with ((c :: mid) ++ post).
  assert (Hfull : FullRune (c :: mid) = true)
    by (apply FullRune_valid; [discriminate | exact Hok]).
  rewrite (DecodeRune_app (c :: mid) post); [| discriminate | auto].
  pose proof (DecodeRune_size (c :: mid) ltac:(discriminate)) as Hsz.
  destruct (DecodeRune (c :: mid)) as [r size] eqn:Hdec. cbn [fst snd] in *.
  rewrite skipn_app.
  replace (Z.to_nat size - List.length (c :: mid))%nat with 0%nat
    by (unfold len in Hsz; lia).
  cbn [skipn].
  rewrite IH; [reflexivity | | exact Hv].
  apply skipn_size_length; [lia | discriminate].
Qed.

End utf8_encode.

(** X12 (extraction of well-formed UTF-8):
    a span of well-formed UTF-8 text is extracted as it is by the range
    that starts at its first byte and is as long as the span has characters:
    no multi-byte character of the span is split or altered. *)
Theorem ExtractString_utf8 pre mid post :
  len (pre ++ mid ++ post) <= max_int ->
  valid_utf8 mid = true ->
  ExtractString (pre ++ mid ++ post) (len pre, len pre + len (runes mid))
  = (mid, None).
Proof.
  intros Hin Hv.
  pose proof (len_nonneg pre) as Hpre. pose proof (len_nonneg mid) as Hmid.
  pose proof (len_nonneg post) as Hpost.
  pose proof (len_nonneg (runes mid)) as Hrn.
  assert (Hrl : len (runes mid) <= len mid).
  { pose proof (runes_length mid). unfold len. lia. }
  rewrite !len_app in Hin.
  assert (HL : Len (len pre, len pre + len (runes mid)) = len (runes mid)).
  { rewrite Len_eq; cbn [fst snd]; unfold Range_wf, is_uint, max_int in *;
      cbn [fst snd]; lia. }
  rewrite ExtractString_eq, HL. cbn [fst snd].
  rewrite to_int_small by (unfold max_int in *; lia).
  destruct (len (runes mid) =? 0) eqn:E0.
  { apply Z.eqb_eq in E0.
    destruct mid as [|c mid]; [reflexivity |].
    rewrite runes_cons, len_cons in E0. pose proof (len_nonneg
      (runes (skipn (Z.to_nat (snd (utf8.DecodeRune (c :: mid)))) (c :: mid)))). lia. }
  apply Z.eqb_neq in E0.
  destruct (len (runes mid) <? 0) eqn:E1; [apply Z.ltb_lt in E1; lia |].
  destruct (len pre <? 0) eqn:E2; [apply Z.ltb_lt in E2; lia |].
  destruct (len pre >=? len (pre ++ mid ++ post)) eqn:E3.
  { rewrite Z.geb_leb in E3. apply Z.leb_le in E3. rewrite !len_app in E3. lia. }
  replace (skipn (Z.to_nat (len pre)) (pre ++ mid ++ post)) with (mid ++ post).
  2:{ rewrite skipn_app, skipn_all2 by (unfold len; lia).
      replace (Z.to_nat (len pre) - List.length pre)%nat with 0%nat
        by (unfold len; lia).
      reflexivity. }
  replace (Z.to_nat (len (runes mid))) with (List.length (runes mid))
    by (unfold len; lia).
  rewrite utf8_encode.decode_n_valid by assumption.
  now rewrite utf8_encode.string_of_runes_valid.
Qed.

(** A two-byte and a three-byte character between single-byte ones. *)
Lemma ExtractString_utf8_witness :
  ExtractString ([x61] ++ [xc3; xa9; x62; xe2; x82; xac] ++ [x63])
    (len [x61], len [x61] + len (runes [xc3; xa9; x62; xe2; x82; xac]))
  = ([xc3; xa9; x62; xe2; x82; xac], None).
Proof.
  apply (ExtractString_utf8 [x61] [xc3; xa9; x62; xe2; x82; xac] [x63]).
  - unfold max_int. cbn. lia.
  - reflexivity.
Defined.

(** ** cli: examples *)

(** X13 (example after WithExample):
    after [WithExample(format, source, example)] the example of that
    format and source is the command line built from them, and the example
    of every other pair of format and source is what it was: an example
    for another source of the same format is kept. *)
Theorem example_WithExample {F : Type} (c : cli.CLI F) format source example :
  cli.example (cli.WithExample format source example c) format source
  = str "translate " ++ format ++ str " " ++ source ++ str " " ++ example
    ++ str " --from en --into de --deepl $DEEPL_AUTH_KEY"
  /\ forall f s,
       (f, s) <> (format, source) ->
       cli.example (cli.WithExample format source example c) f s
       = cli.example c f s.
Proof.
  unfold cli.example, cli.WithExample, cli.map_set. cbn [cli.examples].
  split.
  - destruct (cli.gostring_eq_dec format format) as [_ | Hne]; [| congruence].
    destruct (cli.gostring_eq_dec source source) as [_ | Hne]; [| congruence].
    reflexivity.
  - intros f s Hfs.
    destruct (cli.gostring_eq_dec f format) as [-> | Hf]; [| reflexivity].
    destruct (cli.gostring_eq_dec s source) as [-> | Hs]; [congruence |].
    destruct (cli.examples c format) as [m |]; reflexivity.
Qed.

Lemma example_WithExample_witness :
  cli.example
    (cli.WithExample (str "json") (str "text") (str "'{}'")
       (cli.WithExample (str "json") (str "file") (str "i18n/en.json")
          (cli.mkCLI (@nil (cli.Translator unit)) cli.map_make)))
    (str "json") (str "file")
  = str "translate json file i18n/en.json --from en --into de --deepl $DEEPL_AUTH_KEY".
Proof.
  destruct (example_WithExample
              (cli.WithExample (str "json") (str "file") (str "i18n/en.json")
                 (cli.mkCLI (@nil (cli.Translator unit)) cli.map_make))
              (str "json") (str "text") (str "'{}'")) as [_ Hother].
  rewrite Hother by (vm_compute; discriminate).
  reflexivity.
Defined.

(** ** cli: translator configurations *)

Lemma translatorConfig_loop_spec {F : Type} (nil_New : F) ts name :
  match cli.translatorConfig_loop nil_New ts name with
  | (t, true) =>
      exists l1 l2,
        ts = l1 ++ t :: l2 /\ cli.Name t = name
        /\ Forall (fun t' => cli.Name t' <> name) l1
  | (t, false) =>
      t = cli.mkTranslator (str "") (str "") nil_New
      /\ Forall (fun t' => cli.Name t' <> name) ts
  end.
Proof.
  induction ts as [|t ts IH]; cbn [cli.translatorConfig_loop].
  - split; [reflexivity | constructor].
  - destruct (cli.gostring_eq_dec (cli.Name t) name) as [Heq | Hne].
    + exists [], ts. repeat split; auto.
    + destruct (cli.translatorConfig_loop nil_New ts name) as [t' [|]].
      * destruct IH as (l1 & l2 & -> & Hn & Hall).
        exists (t :: l1), l2. repeat split; auto.
      * destruct IH as [-> Hall]. split; [reflexivity | now constructor].
Qed.

(** X14 (first translator of a name):
    [translatorConfig] returns the first translator registered under the
    name, and reports a missing name with the zero Translator and false. *)
Theorem translatorConfig_spec {F : Type} (nil_New : F) (c : cli.CLI F) name :
  match cli.translatorConfig nil_New c name with
  | (t, true) =>
      exists l1 l2,
        cli.translators c = l1 ++ t :: l2 /\ cli.Name t = name
        /\ Forall (fun t' => cli.Name t' <> name) l1
  | (t, false) =>
      t = cli.mkTranslator (str "") (str "") nil_New
      /\ Forall (fun t' => cli.Name t' <> name) (cli.translators c)
  end.
Proof. apply translatorConfig_loop_spec. Qed.

Lemma translatorConfig_loop_app {F : Type} (nil_New : F) ts ts' name :
  snd (cli.translatorConfig_loop nil_New ts name) = true ->
  cli.translatorConfig_loop nil_New (ts ++ ts') name
  = cli.translatorConfig_loop nil_New ts name.
Proof.
  induction ts as [|t ts IH]; cbn [cli.translatorConfig_loop app];
    [discriminate |].
  destruct (cli.gostring_eq_dec (cli.Name t) name); [reflexivity | exact IH].
Qed.

(** X15 (a registered name is not overridden):
    a translator added by a later [WithTranslator] under a name that is
    already registered is never selected: the configuration found for that
    name stays the same. *)
Theorem translatorConfig_WithTranslator {F : Type} (nil_New : F) (c : cli.CLI F)
    trans name :
  snd (cli.translatorConfig nil_New c name) = true ->
  cli.translatorConfig nil_New (cli.WithTranslator trans c) name
  = cli.translatorConfig nil_New c name.
Proof.
  unfold cli.translatorConfig, cli.WithTranslator. cbn [cli.translators].
  apply translatorConfig_loop_app.
Qed.

Lemma translatorConfig_WithTranslator_witness :
  cli.translatorConfig tt
    (cli.WithTranslator [cli.mkTranslator (str "deepl") (str "second") tt]
       (cli.mkCLI [cli.mkTranslator (str "deepl") (str "first") tt] cli.map_make))
    (str "deepl")
  = (cli.mkTranslator (str "deepl") (str "first") tt, true).
Proof.
  rewrite (translatorConfig_WithTranslator tt
             (cli.mkCLI [cli.mkTranslator (str "deepl") (str "first") tt] cli.map_make)
             [cli.mkTranslator (str "deepl") (str "second") tt] (str "deepl"));
    reflexivity.
Defined.
